(** * A job queue with typed workers: the lifecycle engine

    Shallow embedding of the coordinator (models/job.js, models/worker.js,
    services/worker-manager.js, services/queue.js, app.js), of the worker
    runtime's [processJob] (worker.js) and of the Redis rate-limiter script
    (limiter_api_BMN.lua).

    Conventions.
    - A SQLite table is the list of its rows in rowid order; the
      AUTOINCREMENT counter is kept next to it.
    - [CURRENT_TIMESTAMP] is a parameter [now] (seconds) of each statement.
    - A TEXT column holding [JSON.stringify v] is modelled by the value [v].
    - Ids are natural numbers, also where the code receives them as the text
      of a route parameter.
    - A JS object used as a dictionary and a Redis hash are [gmap]s.
    - Database statements are atomic.  [getNextPending] and [getStats],
      which await between statements whose results are put together, take
      what the other requests did in between as a parameter [env]; every
      other function is taken as served to completion. *)

From Stdlib Require Import ZArith Lia.
From stdpp Require Import gmap strings list sorting.

#[local] Set Warnings "-register-all".

(** ** JSON values, as far as the code inspects them *)

Inductive json :=
| JNull
| JBool (b : bool)
| JNum (n : Z)
| JStr (s : string)
| JArr (xs : list json)
| JObj (fields : list (string * json)).

(** JavaScript truthiness of a value, as used by [result ? ... : null],
    [!type] and [!payload]. *)
Definition truthy (v : json) : bool :=
  match v with
  | JNull => false
  | JBool b => b
  | JNum n => negb (n =? 0)%Z
  | JStr s => negb (String.eqb s ""%string)
  | JArr _ => true
  | JObj _ => true
  end.

(** A field of a request body: [None] is [undefined] (the field is omitted). *)
Definition truthy_field (f : option json) : bool :=
  match f with
  | None => false
  | Some v => truthy v
  end.

(** ** Rows of the two tables (db.js) *)

Record job_row := mk_job {
  job_id : nat;
  job_type : string;
  job_payload : json;
  job_status : string;
  job_worker_id : option nat;
  job_result : option json;
  job_created_at : nat;
  job_updated_at : nat
}.

Record worker_row := mk_worker {
  worker_id : nat;
  worker_type : string;
  worker_status : string;
  worker_last_active : nat;
  worker_created_at : nat;
  worker_updated_at : nat
}.

Record database := mk_db {
  jobs : list job_row;
  jobs_seq : nat;
  workers : list worker_row;
  workers_seq : nat
}.

Definition empty_db : database := mk_db [] 0 [] 0.

Definition with_jobs (rows : list job_row) (db : database) : database :=
  mk_db rows (jobs_seq db) (workers db) (workers_seq db).

Definition with_workers (rows : list worker_row) (db : database) : database :=
  mk_db (jobs db) (jobs_seq db) rows (workers_seq db).

(** The four statuses of the job state machine. *)
Definition pending : string := "pending"%string.
Definition processing : string := "processing"%string.
Definition completed : string := "completed"%string.
Definition failed : string := "failed"%string.

(** ** models/job.js *)

Module Job.

(** [WHERE status = 'pending' AND type = ?] *)
Definition pending_of (T : string) (r : job_row) : Prop :=
  job_status r = pending ∧ job_type r = T.

#[global] Instance pending_of_dec T r : Decision (pending_of T r).
Proof. unfold pending_of. apply _. Defined.

(** [WHERE id = ? AND status = 'pending'] *)
Definition claimable (id : nat) (r : job_row) : Prop :=
  job_id r = id ∧ job_status r = pending.

#[global] Instance claimable_dec id r : Decision (claimable id r).
Proof. unfold claimable. apply _. Defined.

(** [ORDER BY created_at ASC]: a stable sort of the scanned rows, so that
    rows created in the same second stay in rowid order. *)
Fixpoint insert_by_created_at (r : job_row) (l : list job_row) : list job_row :=
  match l with
  | [] => [r]
  | x :: l' =>
      if decide (job_created_at r ≤ job_created_at x)
      then r :: l
      else x :: insert_by_created_at r l'
  end.

Definition order_by_created_at (l : list job_row) : list job_row :=
  foldr insert_by_created_at [] l.

(** [INSERT INTO jobs (type, payload, status) VALUES (?, ?, 'pending')];
    returns [lastID]. *)
Definition create (now : nat) (type : string) (payload : json)
    (db : database) : database * nat :=
  let id := S (jobs_seq db) in
  (mk_db (jobs db ++ [mk_job id type payload pending None None now now])
         id (workers db) (workers_seq db),
   id).

(** The SELECT of [getNextPending]:
    [SELECT * FROM jobs WHERE status = 'pending' AND type = ?
     ORDER BY created_at ASC LIMIT 1]. *)
Definition select_next_pending (T : string) (db : database) : option job_row :=
  head (order_by_created_at (filter (pending_of T) (jobs db))).

Definition mark_processing (now : nat) (r : job_row) : job_row :=
  mk_job (job_id r) (job_type r) (job_payload r) processing
         (job_worker_id r) (job_result r) (job_created_at r) now.

(** The UPDATE of [getNextPending]:
    [UPDATE jobs SET status = 'processing', updated_at = CURRENT_TIMESTAMP
     WHERE id = ? AND status = 'pending']; returns [changes]. *)
Definition claim_update (now id : nat) (db : database) : database * nat :=
  (with_jobs
     ((λ r, if decide (claimable id r) then mark_processing now r else r)
        <$> jobs db)
     db,
   length (filter (claimable id) (jobs db))).

(** [getNextPending(type)].  The two statements are separated by an
    [await]: [env] is what the other requests served meanwhile did to the
    database. *)
Definition getNextPending (env : database → database) (now : nat) (T : string)
    (db : database) : database * option job_row :=
  match select_next_pending T db with
  | None => (db, None)
  | Some job =>
      let '(db', changes) := claim_update now (job_id job) (env db) in
      if decide (changes = 0) then (db', None) else (db', Some job)
  end.

(** [updateStatus(id, status, workerId = null, result = null)]:
    [UPDATE jobs SET status = ?, worker_id = ?, result = ?,
     updated_at = CURRENT_TIMESTAMP WHERE id = ?].  An omitted ([undefined])
    argument takes its default [null]; [result ? JSON.stringify(result) :
    null] stores NULL for every falsy result. *)
Definition result_column (result : option json) : option json :=
  match result with
  | Some v => if truthy v then Some v else None
  | None => None
  end.

Definition overwrite (now : nat) (status : string) (workerId : option nat)
    (result : option json) (r : job_row) : job_row :=
  mk_job (job_id r) (job_type r) (job_payload r) status
         workerId (result_column result) (job_created_at r) now.

Definition updateStatus (now id : nat) (status : string)
    (workerId : option nat) (result : option json) (db : database) : database :=
  with_jobs
    ((λ r, if decide (job_id r = id)
           then overwrite now status workerId result r else r)
       <$> jobs db)
    db.

(** [getStats()]: four row counts [WHERE status = ?] and the
    [GROUP BY type] histogram. *)
Record stats := mk_stats {
  st_pending : nat;
  st_processing : nat;
  st_completed : nat;
  st_failed : nat;
  st_byType : list (string * nat)
}.

(** [SELECT COUNT( * ) as count FROM jobs WHERE status = ?] *)
Definition count_status (s : string) (db : database) : nat :=
  length (filter (λ r, job_status r = s) (jobs db)).

Definition count_type (T : string) (rows : list job_row) : nat :=
  length (filter (λ r, job_type r = T) rows).

(** [SELECT type, COUNT( * ) as count FROM jobs GROUP BY type]: one row per
    type, in the order of the grouping key (bytewise, as SQLite sorts the
    groups). *)
Definition group_by_type (rows : list job_row) : list (string * nat) :=
  (λ T, (T, count_type T rows))
    <$> merge_sort (λ a b, String.leb a b) (remove_dups (job_type <$> rows)).

(** The five statements are awaited one after the other: [env k] is what
    the other requests served meanwhile did to the database between
    statement [k] and the next.  Returns the database as the last statement
    read it, and the object built from the five answers. *)
Definition getStats (env : nat → database → database) (db : database)
    : database * stats :=
  let n_pending := count_status pending db in
  let db1 := env 1 db in
  let n_processing := count_status processing db1 in
  let db2 := env 2 db1 in
  let n_completed := count_status completed db2 in
  let db3 := env 3 db2 in
  let n_failed := count_status failed db3 in
  let db4 := env 4 db3 in
  (db4, mk_stats n_pending n_processing n_completed n_failed
                 (group_by_type (jobs db4))).

End Job.

(** ** models/worker.js *)

Module Worker.

(** [INSERT INTO workers (type, status, last_active)
     VALUES (?, 'idle', CURRENT_TIMESTAMP)]; returns [lastID]. *)
Definition create (now : nat) (type : string) (db : database) : database * nat :=
  let id := S (workers_seq db) in
  (mk_db (jobs db) (jobs_seq db)
         (workers db ++ [mk_worker id type "idle" now now now]) id,
   id).

Definition set_status (now : nat) (status : string) (w : worker_row) : worker_row :=
  mk_worker (worker_id w) (worker_type w) status now (worker_created_at w) now.

(** [UPDATE workers SET status = ?, last_active = CURRENT_TIMESTAMP,
     updated_at = CURRENT_TIMESTAMP WHERE id = ?]. *)
Definition updateStatus (now id : nat) (status : string) (db : database) : database :=
  with_workers
    ((λ w, if decide (worker_id w = id) then set_status now status w else w)
       <$> workers db)
    db.

(** [SELECT * FROM workers] *)
Definition getAll (db : database) : list worker_row := workers db.

(** [SELECT * FROM workers WHERE type = ?] *)
Definition getByType (type : string) (db : database) : list worker_row :=
  filter (λ w, worker_type w = type) (workers db).

Record stats := mk_stats {
  st_total : nat;
  st_idle : nat;
  st_busy : nat;
  st_byType : list (string * nat)
}.

(** [SELECT COUNT( * ) as count FROM workers WHERE status = ?] *)
Definition count_status (s : string) (db : database) : nat :=
  length (filter (λ w, worker_status w = s) (workers db)).

(** [SELECT type, COUNT( * ) as count FROM workers GROUP BY type], in the
    order of the grouping key. *)
Definition group_by_type (db : database) : list (string * nat) :=
  (λ T, (T, length (getByType T db)))
    <$> merge_sort (λ a b, String.leb a b)
          (remove_dups (worker_type <$> workers db)).

(** [getStats()]: four awaited statements, with [env k] between statement
    [k] and the next. *)
Definition getStats (env : nat → database → database) (db : database)
    : database * stats :=
  let n_total := length (workers db) in
  let db1 := env 1 db in
  let n_idle := count_status "idle" db1 in
  let db2 := env 2 db1 in
  let n_busy := count_status "busy" db2 in
  let db3 := env 3 db2 in
  (db3, mk_stats n_total n_idle n_busy (group_by_type db3)).

End Worker.

(** ** services/worker-manager.js *)

Module WorkerManager.

(** [this.workers]: worker id to the handle of its live child process
    (the handle is represented by the worker's type).  [signals] lists, in
    order, the ids of the processes that were sent [kill()].  The [exit]
    listener of a child (forget the handle, respawn on a non-zero code) runs
    on a later turn of the event loop and is not part of these functions. *)
Record t := mk {
  handles : gmap nat string;
  signals : list nat
}.

Definition empty : t := mk ∅ [].

(** [startWorker(id, type)]: spawn the child and remember its handle. *)
Definition startWorker (id : nat) (type : string) (m : t) : t :=
  mk (<[id := type]> (handles m)) (signals m).

(** [init()]: one child per Worker record. *)
Definition init (db : database) (m : t) : t :=
  foldl (λ m w, startWorker (worker_id w) (worker_type w) m) m (Worker.getAll db).

(** [createWorker(type)]. *)
Definition createWorker (now : nat) (type : string) (s : database * t)
    : database * t * nat :=
  let '(db', id) := Worker.create now type (fst s) in
  (db', startWorker id type (snd s), id).

(** [stopWorker(id)]: kill and forget the handle when there is one. *)
Definition stopWorker (id : nat) (m : t) : t * bool :=
  match handles m !! id with
  | Some _ => (mk (delete id (handles m)) (signals m ++ [id]), true)
  | None => (m, false)
  end.

(** [scaleWorkers(type, count)]. *)
Definition scaleWorkers (now : nat) (type : string) (count : nat)
    (s : database * t) : database * t :=
  let currentWorkers := Worker.getByType type (fst s) in
  if decide (length currentWorkers < count) then
    foldl (λ s _, fst (createWorker now type s)) s
          (seq (length currentWorkers) (count - length currentWorkers))
  else if decide (count < length currentWorkers) then
    let workersToRemove := take (length currentWorkers - count) currentWorkers in
    (fst s,
     foldl (λ m w, fst (stopWorker (worker_id w) m)) (snd s) workersToRemove)
  else s.

End WorkerManager.

(** ** services/queue.js *)

Inductive event :=
| JobNew (type : string)
| JobComplete (jobId workerId : nat) (result : option json)
| JobFailed (jobId workerId : nat) (error : string).

Definition channel_of (ev : event) : string :=
  match ev with
  | JobNew _ => "job:new"
  | JobComplete _ _ _ => "worker:job-complete"
  | JobFailed _ _ _ => "worker:job-failed"
  end.

Module QueueService.

(** The Redis lists [jobs:<type>] (head first) and the messages published
    so far. *)
Record t := mk {
  backlog : gmap string (list (nat * string * json));
  published : list event
}.

Definition empty : t := mk ∅ [].

(** [addJob]: LPUSH on [jobs:<type>], then PUBLISH [job:new]. *)
Definition addJob (jobId : nat) (type : string) (payload : json) (q : t) : t :=
  mk (<[type := (jobId, type, payload) :: default [] (backlog q !! type)]> (backlog q))
     (published q ++ [JobNew type]).

(** [getNextJob]: RPOP of [jobs:<type>]. *)
Definition getNextJob (type : string) (q : t) : t * option (nat * string * json) :=
  match backlog q !! type with
  | Some l =>
      match last l with
      | Some e => (mk (<[type := removelast l]> (backlog q)) (published q), Some e)
      | None => (q, None)
      end
  | None => (q, None)
  end.

Definition jobComplete (jobId workerId : nat) (result : option json) (q : t) : t :=
  mk (backlog q) (published q ++ [JobComplete jobId workerId result]).

Definition jobFailed (jobId workerId : nat) (error : string) (q : t) : t :=
  mk (backlog q) (published q ++ [JobFailed jobId workerId error]).

End QueueService.

(** ** config.js *)

Module config.
Definition jobTypes : list string :=
  ["email"; "whatsapp"; "sms"; "notification"; "cronjob"]%string.
Definition defaultCount : nat := 1.
Definition maxCount : nat := 10.
End config.

(** ** app.js: the coordinator *)

Module App.

Record coordinator := mk {
  db : database;
  manager : WorkerManager.t;
  queue : QueueService.t
}.

(** The handlers registered with [queueService.setHandlers]. *)
Definition onJobComplete (now jobId workerId : nat) (result : option json)
    (d : database) : database :=
  Worker.updateStatus now workerId "idle"
    (Job.updateStatus now jobId completed (Some workerId) result d).

Definition onJobFailed (now jobId workerId : nat) (error : string)
    (d : database) : database :=
  Worker.updateStatus now workerId "idle"
    (Job.updateStatus now jobId failed (Some workerId)
       (Some (JObj [("error"%string, JStr error)])) d).

(** Delivery of a message of the two subscribed channels. *)
Definition deliver (now : nat) (ev : event) (c : coordinator) : coordinator :=
  match ev with
  | JobComplete jobId workerId result =>
      mk (onJobComplete now jobId workerId result (db c)) (manager c) (queue c)
  | JobFailed jobId workerId error =>
      mk (onJobFailed now jobId workerId error (db c)) (manager c) (queue c)
  | JobNew _ => c
  end.

(** [startServer()] up to [app.listen]: open the database, start a child
    per Worker record, and seed [defaultCount] workers per type when the
    table is empty. *)
Definition seed (now : nat) (s : database * WorkerManager.t)
    : database * WorkerManager.t :=
  foldl (λ s type,
           foldl (λ s _, fst (WorkerManager.createWorker now type s)) s
                 (seq 0 config.defaultCount))
        s config.jobTypes.

Definition startServer (now : nat) (d : database) : coordinator :=
  let m := WorkerManager.init d WorkerManager.empty in
  let s := if decide (length (Worker.getAll d) = 0) then seed now (d, m) else (d, m) in
  mk (fst s) (snd s) QueueService.empty.

(** Requests of the HTTP interface.  A body field that may be missing or
    of any JSON type is an [option json]; [status], ids and [count] are
    taken at the type the code uses them at. *)
Inductive request :=
| PostJob (type payload : option json)
| GetJob (id : nat)
| PatchJob (id : nat) (status : string) (workerId : option nat) (result : option json)
| GetNextJob (type : string)
| PostWorker (type : option json)
| DeleteWorker (id : nat)
| PatchWorker (id : nat) (status : string)
| PostScale (type : option json) (count : option nat)
| GetStats
| GetWorker (id : nat).

Inductive body :=
| BError (msg : string)
| BJobId (jobId : nat)
| BJob (job : option job_row)
| BSuccess
| BWorkerId (workerId : nat)
| BWorker (worker : worker_row)
| BStats (jobs : Job.stats) (workers : Worker.stats).

Definition response : Type := nat * body.

(** [typeof payload !== 'object' || Array.isArray(payload) ||
    !Object.keys(payload).length] is false exactly on a non-empty object
    (a [null] payload was already refused by [!payload]). *)
Definition nonempty_object (v : json) : bool :=
  match v with
  | JObj (_ :: _) => true
  | _ => false
  end.

(** [Object.values(config.jobTypes).includes(type)] *)
Definition known_type (v : json) : option string :=
  match v with
  | JStr s => if decide (s ∈ config.jobTypes) then Some s else None
  | _ => None
  end.

Definition invalid_type (what : string) : string :=
  ("Invalid " +:+ what +:+ " type. Must be one of: "
     +:+ String.concat ", " config.jobTypes)%string.

Definition find_job (id : nat) (d : database) : option job_row :=
  head (filter (λ r, job_id r = id) (jobs d)).

Definition find_worker (id : nat) (d : database) : option worker_row :=
  head (filter (λ w, worker_id w = id) (workers d)).

(** [GET /api/stats]: [await jobModel.getStats()], then
    [await workerModel.getStats()].  [env k] for [k] from 1 to 4 runs
    between the statements of the first, [env 5] between the two calls, and
    [env k] for [k] from 6 to 8 between the statements of the second. *)
Definition getStats (env : nat → database → database) (c : coordinator)
    : coordinator * response :=
  let '(d, jobStats) := Job.getStats env (db c) in
  let '(d', workerStats) := Worker.getStats (λ k, env (5 + k)) (env 5 d) in
  (mk d' (manager c) (queue c), (200, BStats jobStats workerStats)).

(** One request, served to completion at time [now]: no statement of
    another request runs between its statements. *)
Definition handle (now : nat) (req : request) (c : coordinator)
    : coordinator * response :=
  match req with
  | PostJob type payload =>
      if negb (truthy_field type) || negb (truthy_field payload)
      then (c, (400, BError "Type and payload are required"))
      else if negb (from_option nonempty_object false payload)
      then (c, (400, BError "Payload must be a non-empty object"))
      else
        match type ≫= known_type, payload with
        | Some T, Some p =>
            let '(d, jobId) := Job.create now T p (db c) in
            (mk d (manager c) (QueueService.addJob jobId T p (queue c)),
             (201, BJobId jobId))
        | _, _ => (c, (400, BError (invalid_type "job")))
        end
  | GetJob id =>
      match find_job id (db c) with
      | Some job => (c, (200, BJob (Some job)))
      | None => (c, (404, BError "Job not found"))
      end
  | PatchJob id status workerId result =>
      (mk (Job.updateStatus now id status workerId result (db c))
          (manager c) (queue c),
       (200, BSuccess))
  | GetNextJob type =>
      let '(d, job) := Job.getNextPending id now type (db c) in
      (mk d (manager c) (queue c), (200, BJob job))
  | PostWorker type =>
      if negb (truthy_field type)
      then (c, (400, BError "Type is required"))
      else
        match type ≫= known_type with
        | Some T =>
            let '(d, m, workerId) :=
              WorkerManager.createWorker now T (db c, manager c) in
            (mk d m (queue c), (201, BWorkerId workerId))
        | None => (c, (400, BError (invalid_type "worker")))
        end
  | DeleteWorker id =>
      let '(m, success) := WorkerManager.stopWorker id (manager c) in
      if success
      then (mk (db c) m (queue c), (200, BSuccess))
      else (c, (404, BError "Worker not found"))
  | PatchWorker id status =>
      (mk (Worker.updateStatus now id status (db c)) (manager c) (queue c),
       (200, BSuccess))
  | PostScale type count =>
      match count with
      | Some (S n) =>
          if negb (truthy_field type)
          then (c, (400, BError "Type and count are required"))
          else
            match type ≫= known_type with
            | Some T =>
                if decide (config.maxCount < S n)
                then (c, (400, BError "Count must be between 1 and 10"))
                else
                  let '(d, m) :=
                    WorkerManager.scaleWorkers now T (S n) (db c, manager c) in
                  (mk d m (queue c), (200, BSuccess))
            | None => (c, (400, BError (invalid_type "worker")))
            end
      | _ => (c, (400, BError "Type and count are required"))
      end
  | GetStats => getStats (λ _ d, d) c
  | GetWorker id =>
      match find_worker id (db c) with
      | Some worker => (c, (200, BWorker worker))
      | None => (c, (404, BError "Worker not found"))
      end
  end.

(** The coordinator after serving a sequence of timed requests. *)
Definition serve (c : coordinator) (reqs : list (nat * request)) : coordinator :=
  foldl (λ c r, fst (handle (fst r) (snd r) c)) c reqs.

(** States reachable through the HTTP interface from a first boot. *)
Inductive reachable : coordinator → Prop :=
| reachable_boot now : reachable (startServer now empty_db)
| reachable_handle now req c :
    reachable c → reachable (fst (handle now req c)).

End App.

(** ** worker.js: [processJob] *)

Module Runtime.

(** The eight places of [processJob] that PATCH the coordinator or
    PUBLISH on Redis. *)
Inductive site :=
| PatchJobProcessing
| PatchWorkerBusy
| PatchJobCompleted
| PatchWorkerIdle
| PublishComplete
| PatchJobFailed
| PatchWorkerIdleAfterFailure
| PublishFailed.

#[global] Instance site_eq_dec : EqDecision site.
Proof. solve_decision. Defined.

Inductive call :=
| Http (req : App.request)
| Publish (ev : event).

(** What a run leaves behind, in order: the calls it attempted, the
    adapter it ran, and the lines it wrote with [console.error]. *)
Inductive entry :=
| Attempt (s : site) (c : call)
| Execute (job : job_row)
| LogError (msg : string).

Inductive result (A : Type) :=
| Ok (a : A)
| Throw (msg : string).
Arguments Ok {A} a.
Arguments Throw {A} msg.

(** Computations that append to the trace and may throw. *)
Definition M (A : Type) : Type := list entry → list entry * result A.

Definition ret {A} (a : A) : M A := λ tr, (tr, Ok a).

Definition bind {A B} (m : M A) (k : A → M B) : M B :=
  λ tr, match m tr with
        | (tr', Ok a) => k a tr'
        | (tr', Throw e) => (tr', Throw e)
        end.

Definition throw {A} (e : string) : M A := λ tr, (tr, Throw e).

Definition emit (x : entry) : M unit := λ tr, (tr ++ [x], Ok tt).

(** [try { m } catch (e) { h e }] *)
Definition try_catch {A} (m : M A) (h : string → M A) : M A :=
  λ tr, match m tr with
        | (tr', Ok a) => (tr', Ok a)
        | (tr', Throw e) => h e tr'
        end.

#[global] Instance M_ret : MRet M := @ret.
#[global] Instance M_bind : MBind M := λ A B k m, bind m k.

(** The sites a run attempted, in order, and whether it ran the adapter. *)
Definition attempts (tr : list entry) : list site :=
  omap (λ x, match x with Attempt s _ => Some s | _ => None end) tr.

Definition executed (tr : list entry) : bool :=
  existsb (λ x, match x with Execute _ => true | _ => false end) tr.

Definition logged (tr : list entry) : list string :=
  omap (λ x, match x with LogError msg => Some msg | _ => None end) tr.

(** The text each site puts before the error message in its
    [console.error] line. *)
Definition what (s : site) : string :=
  match s with
  | PatchJobProcessing => "[DEBUG] Error updating job status: "
  | PatchWorkerBusy => "[DEBUG] Error updating worker status: "
  | PatchJobCompleted => "[DEBUG] Error marking job as completed: "
  | PatchWorkerIdle => "[DEBUG] Error marking worker as idle: "
  | PublishComplete => "[DEBUG] Error publishing job completion: "
  | PatchJobFailed => "[DEBUG] Error marking job as failed: "
  | PatchWorkerIdleAfterFailure =>
      "[DEBUG] Error marking worker as idle after failure: "
  | PublishFailed => "[DEBUG] Error publishing job failure: "
  end.

(** [{ error: error.message }] *)
Definition error_result (e : string) : json :=
  JObj [("error"%string, JStr e)].

(** The calls whose [catch] only logs, and those whose [catch] logs and
    throws again. *)
Definition swallowed (s : site) : bool :=
  match s with
  | PatchJobProcessing | PatchWorkerBusy | PatchJobCompleted => false
  | _ => true
  end.

Section processJob.

(** The worker's id, the network ([Some msg]: the call at that site
    fails with message [msg]) and the outcome of the adapter selected by
    the job's type (lines 92-153: the cronjob, email and WhatsApp
    services or the webhook POST). *)
Variable workerId : nat.
Variable net : site → option string.
Variable adapter : job_row → result json.

Definition perform (s : site) (c : call) : M unit :=
  emit (Attempt s c) ;;
  match net s with
  | Some msg => throw msg
  | None => ret tt
  end.

(** [try { call } catch (e) { console.error(..); throw e }] *)
Definition logged_rethrow (s : site) (c : call) : M unit :=
  try_catch (perform s c) (λ e, emit (LogError (what s +:+ e)) ;; throw e).

(** [try { call } catch (e) { console.error(..) }] *)
Definition logged_swallow (s : site) (c : call) : M unit :=
  try_catch (perform s c) (λ e, emit (LogError (what s +:+ e))).

Definition run_adapter (job : job_row) : M json :=
  emit (Execute job) ;;
  match adapter job with
  | Ok v => ret v
  | Throw e => throw e
  end.

Definition processJob (job : job_row) : M json :=
  try_catch
    (logged_rethrow PatchJobProcessing
       (Http (App.PatchJob (job_id job) processing (Some workerId) None)) ;;
     logged_rethrow PatchWorkerBusy
       (Http (App.PatchWorker workerId "busy")) ;;
     result ← run_adapter job;
     logged_rethrow PatchJobCompleted
       (Http (App.PatchJob (job_id job) completed None (Some result))) ;;
     logged_swallow PatchWorkerIdle
       (Http (App.PatchWorker workerId "idle")) ;;
     logged_swallow PublishComplete
       (Publish (JobComplete (job_id job) workerId (Some result))) ;;
     ret result)
    (λ error,
       emit (LogError ("failed to process job: " +:+ error)) ;;
       logged_swallow PatchJobFailed
         (Http (App.PatchJob (job_id job) failed None
                  (Some (error_result error)))) ;;
       logged_swallow PatchWorkerIdleAfterFailure
         (Http (App.PatchWorker workerId "idle")) ;;
       logged_swallow PublishFailed
         (Publish (JobFailed (job_id job) workerId error)) ;;
       throw error).

End processJob.

(** The three calls of the outer [catch], in order. *)
Definition failure_path : list site :=
  [PatchJobFailed; PatchWorkerIdleAfterFailure; PublishFailed].

(** A summary of [processJob], used to state its properties and proved
    against it below: the sites attempted, whether the adapter ran, and the
    outcome, as decided by the three calls that throw again and by the
    adapter. *)

Definition path (net : site → option string) (adapter : job_row → result json)
    (job : job_row) : list site * bool * result json :=
  match net PatchJobProcessing with
  | Some e => (PatchJobProcessing :: failure_path, false, Throw e)
  | None =>
      match net PatchWorkerBusy with
      | Some e =>
          ([PatchJobProcessing; PatchWorkerBusy] ++ failure_path, false, Throw e)
      | None =>
          match adapter job with
          | Throw e =>
              ([PatchJobProcessing; PatchWorkerBusy] ++ failure_path, true,
               Throw e)
          | Ok v =>
              match net PatchJobCompleted with
              | Some e =>
                  ([PatchJobProcessing; PatchWorkerBusy; PatchJobCompleted]
                     ++ failure_path, true, Throw e)
              | None =>
                  ([PatchJobProcessing; PatchWorkerBusy; PatchJobCompleted;
                    PatchWorkerIdle; PublishComplete], true, Ok v)
              end
          end
      end
  end.

End Runtime.

(** ** Two claim operations in flight

    [getNextPending] is two database statements with an [await] between
    them; the event loop may serve another request's statement there.  A
    claim in flight is at one of three points. *)

Module Race.

Inductive pc :=
| Start (T : string)
| Selected (job : job_row)
| Done (result : option job_row).

(** The next statement of one claim, at time [now]. *)
Definition proc_step (now : nat) (p : pc) (d : database) : database * pc :=
  match p with
  | Start T =>
      match Job.select_next_pending T d with
      | None => (d, Done None)
      | Some job => (d, Selected job)
      end
  | Selected job =>
      let '(d', changes) := Job.claim_update now (job_id job) d in
      (d', Done (if decide (changes = 0) then None else Some job))
  | Done r => (d, Done r)
  end.

Record config := mk {
  store : database;
  first : pc;
  second : pc
}.

(** A schedule says, statement by statement, which claim moves
    ([true]: the first) and at what time. *)
Definition step (c : config) (who : bool * nat) : config :=
  if fst who
  then let '(d, p) := proc_step (snd who) (first c) (store c) in
       mk d p (second c)
  else let '(d, p) := proc_step (snd who) (second c) (store c) in
       mk d (first c) p.

Definition run (c : config) (sched : list (bool * nat)) : config :=
  foldl step c sched.

Definition outcome (p : pc) : option (option job_row) :=
  match p with
  | Done r => Some r
  | _ => None
  end.

End Race.

(** ** limiter_api_BMN.lua *)

Module Limiter.

(** The Redis keyspace as the script sees it: hashes, and the time to live
    set on a key.  A field holds the decimal text of an integer and is
    modelled by the integer. *)
Record redis := mk {
  hashes : gmap string (gmap string Z);
  ttl : gmap string Z
}.

Definition HGET (key field : string) (r : redis) : option Z :=
  hashes r !! key ≫= λ h, h !! field.

Definition HSET (key field : string) (v : Z) (r : redis) : redis :=
  mk (<[key := <[field := v]> (default ∅ (hashes r !! key))]> (hashes r)) (ttl r).

(** EXPIRE does nothing on a key that does not exist. *)
Definition EXPIRE (key : string) (seconds : Z) (r : redis) : redis :=
  match hashes r !! key with
  | Some _ => mk (hashes r) (<[key := seconds]> (ttl r))
  | None => r
  end.

Definition ALLOW : Z := 1.
Definition DENY : Z := 0.

Section script.

Variables maxTokens refillRate keyExpiry : Z.
Variable key : string.

(** One invocation; [currentTime] is the seconds field of [TIME]. *)
Definition script (currentTime : Z) (r : redis) : redis * Z :=
  let currentTokens := default 0%Z (HGET key "tokens" r) in
  match HGET key "last_request" r with
  | None =>
      (EXPIRE key keyExpiry
         (HSET key "tokens" (maxTokens - 1)
            (HSET key "last_request" currentTime r)),
       ALLOW)
  | Some lastRequest =>
      let elapsedSeconds := (currentTime - lastRequest)%Z in
      let newTokens :=
        Z.min maxTokens (currentTokens + elapsedSeconds * refillRate) in
      if decide (newTokens > 0)%Z then
        (HSET key "last_request" currentTime
           (HSET key "tokens" (newTokens - 1) r),
         ALLOW)
      else (r, DENY)
  end.

End script.

(** The constants at the head of the file. *)
Definition limiter_api_BMN : Z → redis → redis * Z :=
  script 10 5 300 "api_BMN_limit".

End Limiter.

(** * Vocabulary of the statements *)

Definition same_jobs (d d' : database) : Prop :=
  jobs d' = jobs d ∧ jobs_seq d' = jobs_seq d.

(** The primary key of [jobs]: ids are distinct and were all handed out by
    the AUTOINCREMENT counter. *)
Definition jobs_keyed (d : database) : Prop :=
  NoDup (job_id <$> jobs d) ∧ ∀ r, r ∈ jobs d → job_id r ≤ jobs_seq d.

Definition workers_keyed (d : database) : Prop :=
  NoDup (worker_id <$> workers d) ∧ ∀ w, w ∈ workers d → worker_id w ≤ workers_seq d.

(** The statuses of the state machine, and the sum of the four counters of
    [getStats]. *)
Definition known_status (s : string) : Prop :=
  s = pending ∨ s = processing ∨ s = completed ∨ s = failed.

Definition sum_counts (s : Job.stats) : nat :=
  Job.st_pending s + Job.st_processing s + Job.st_completed s + Job.st_failed s.

(** A request that, when it is a PATCH of a job, carries one of the four
    statuses. *)
Definition patches_known (req : App.request) : Prop :=
  match req with
  | App.PatchJob _ status _ _ => known_status status
  | _ => True
  end.

Definition all_known (d : database) : Prop :=
  ∀ r, r ∈ jobs d → known_status (job_status r).

(** No other request adds a job or changes the status of one between the
    first and the last of the four counts of [Job.getStats]: the three
    databases read after the first hold the statuses the first held. *)
Definition undisturbed (env : nat → database → database) (d : database) : Prop :=
  job_status <$> jobs (env 1 d) = job_status <$> jobs d ∧
  job_status <$> jobs (env 2 (env 1 d)) = job_status <$> jobs d ∧
  job_status <$> jobs (env 3 (env 2 (env 1 d))) = job_status <$> jobs d.

(** The columns of a row other than the timestamps an UPDATE refreshes. *)
Definition job_state (r : job_row)
    : nat * string * json * string * option nat * option json * nat :=
  (job_id r, job_type r, job_payload r, job_status r, job_worker_id r,
   job_result r, job_created_at r).

Definition worker_state (w : worker_row) : nat * string * string * nat :=
  (worker_id w, worker_type w, worker_status w, worker_created_at w).

(** No row of the given id can be claimed any more. *)
Definition unclaimable (id : nat) (d : database) : Prop :=
  ∀ r, r ∈ jobs d → ¬ Job.claimable id r.

(** How often a schedule lets the first ([true]) or the second claim move. *)
Definition turns (who : bool) (sched : list (bool * nat)) : nat :=
  length (filter (λ x, x.1 = who) sched).

Definition finished (p : Race.pc) : Prop := is_Some (Race.outcome p).

(** Whoever holds a job holds one that can no longer be claimed, and the
    two claims never hold the same job. *)
Definition exclusive (c : Race.config) : Prop :=
  (∀ j, Race.first c = Race.Done (Some j) → unclaimable (job_id j) (Race.store c)) ∧
  (∀ j, Race.second c = Race.Done (Some j) → unclaimable (job_id j) (Race.store c)) ∧
  (∀ j1 j2, Race.first c = Race.Done (Some j1) →
            Race.second c = Race.Done (Some j2) → job_id j1 ≠ job_id j2).

(** A claim that has not decided yet, and one that has not won, when both
    are after job [j] of type [T]. *)
Definition waiting (T : string) (j : job_row) (p : Race.pc) : Prop :=
  p = Race.Start T ∨ p = Race.Selected j.

Definition lost (T : string) (j : job_row) (p : Race.pc) : Prop :=
  p = Race.Start T ∨ p = Race.Selected j ∨ p = Race.Done None.

(** Two claims of type [T] while [j] is the only pending job of that type:
    either [j] is still pending and neither claim has decided, or [j] has
    been taken by exactly one of them. *)
Definition contested (T : string) (j : job_row) (c : Race.config) : Prop :=
  (filter (Job.pending_of T) (jobs (Race.store c)) = [j] ∧
   waiting T j (Race.first c) ∧ waiting T j (Race.second c)) ∨
  (filter (Job.pending_of T) (jobs (Race.store c)) = [] ∧
   unclaimable (job_id j) (Race.store c) ∧
   ((Race.first c = Race.Done (Some j) ∧ lost T j (Race.second c)) ∨
    (Race.second c = Race.Done (Some j) ∧ lost T j (Race.first c)))).

(** Two claims that selected the same candidate: either both still hold
    their selection and the candidate can be claimed, or one has claimed it
    and the other has not won. *)
Definition racing (j1 j2 : job_row) (c : Race.config) : Prop :=
  (Race.first c = Race.Selected j1 ∧ Race.second c = Race.Selected j2 ∧
   ∃ r, r ∈ jobs (Race.store c) ∧ Job.claimable (job_id j1) r) ∨
  (unclaimable (job_id j1) (Race.store c) ∧
   ((Race.first c = Race.Done (Some j1) ∧
     (Race.second c = Race.Selected j2 ∨ Race.second c = Race.Done None)) ∨
    (Race.second c = Race.Done (Some j2) ∧
     (Race.first c = Race.Selected j1 ∨ Race.first c = Race.Done None)))).

(** The statements a claim still has to run. *)
Definition remaining (p : Race.pc) : nat :=
  match p with
  | Race.Start _ => 2
  | Race.Selected _ => 1
  | Race.Done _ => 0
  end.

(** * Sample states *)

Definition sms : option json := Some (JStr "sms").
Definition sample_payload : option json := Some (JObj [("to"%string, JStr "+1")]).

(** A first boot: one idle worker per type, no job. *)
Definition booted : App.coordinator := App.startServer 100 empty_db.

(** One, and two, pending SMS jobs. *)
Definition one_sms : App.coordinator :=
  App.serve booted [(101, App.PostJob sms sample_payload)].

Definition two_sms : App.coordinator :=
  App.serve booted [(101, App.PostJob sms sample_payload);
                    (102, App.PostJob sms sample_payload)].

Definition first_sms : job_row :=
  mk_job 1 "sms" (JObj [("to"%string, JStr "+1")]) pending None None 101 101.

(** Job 1 claimed and reported completed by worker 3. *)
Definition one_completed : App.coordinator :=
  App.serve one_sms
    [(102, App.GetNextJob "sms");
     (103, App.PatchJob 1 processing (Some 3) None);
     (104, App.PatchJob 1 completed None (Some (JObj [("ok"%string, JBool true)])))].

(** Job 1 patched to a status outside the state machine. *)
Definition one_cancelled : App.coordinator :=
  App.serve one_sms [(102, App.PatchJob 1 "cancelled" None None)].

(** What other requests do while [GET /api/stats] is served: worker 3 is
    patched to [busy] after the second count; an SMS job is claimed after
    the first count. *)
Definition worker_patch_between (k : nat) (d : database) : database :=
  if decide (k = 2) then Worker.updateStatus 103 3 "busy" d else d.

Definition claim_between (k : nat) (d : database) : database :=
  if decide (k = 1) then (Job.getNextPending id 103 "sms" d).1 else d.

(** Job 1 being processed by worker 3. *)
Definition one_processing : App.coordinator :=
  App.serve one_sms
    [(102, App.GetNextJob "sms");
     (103, App.PatchJob 1 processing (Some 3) None)].

(** Three SMS workers: the seeded worker 3 and workers 6 and 7. *)
Definition three_sms_workers : App.coordinator :=
  App.serve booted [(101, App.PostScale sms (Some 3))].

(** A network on which only the first PATCH of [processJob] fails. *)
Definition first_patch_fails (s : Runtime.site) : option string :=
  if decide (s = Runtime.PatchJobProcessing) then Some "ECONNRESET"%string else None.

Definition adapter_ok (job : job_row) : Runtime.result json :=
  Runtime.Ok (JObj [("ok"%string, JBool true)]).

(** An empty bucket, touched at the same second. *)
Definition drained : Limiter.redis :=
  Limiter.mk
    {[ "api_BMN_limit"%string :=
         {[ "tokens"%string := 0%Z; "last_request"%string := 1000%Z ]} ]}
    {[ "api_BMN_limit"%string := 300%Z ]}.

(** Select, select, update, update. *)
Definition both_select_first : list (bool * nat) :=
  [(true, 102); (false, 102); (true, 103); (false, 103)].

(** The answers of the limiter to invocations at the given times. *)
Fixpoint answers (times : list Z) (r : Limiter.redis) : list Z :=
  match times with
  | [] => []
  | t :: times =>
      let '(r', a) := Limiter.limiter_api_BMN t r in a :: answers times r'
  end.

(** * Properties *)

(** ** The claim operation *)

Section ordering.

Implicit Types (l : list job_row) (r h x : job_row).

Lemma insert_by_created_at_perm r l :
  Job.insert_by_created_at r l ≡ₚ r :: l.
Proof.
  induction l as [|y l IH]; simpl; [done|].
  case_decide; [done|].
  rewrite IH. apply Permutation_swap.
Qed.

Lemma order_by_created_at_perm l : Job.order_by_created_at l ≡ₚ l.
Proof.
  induction l as [|y l IH]; simpl; [done|].
  by rewrite insert_by_created_at_perm, IH.
Qed.

Lemma head_insert_by_created_at r l h :
  head (Job.insert_by_created_at r l) = Some h →
  (h = r ∧ ∀ y, head l = Some y → job_created_at r ≤ job_created_at y)
  ∨ (head l = Some h ∧ job_created_at h < job_created_at r).
Proof.
  destruct l as [|y l]; simpl.
  - intros [= <-]. left. split; [done|]. intros ? [=].
  - case_decide as Hle; simpl; intros [= <-].
    + left. split; [done|]. by intros ? [= <-].
    + right. split; [done|]. lia.
Qed.

(** The row that [ORDER BY created_at ASC LIMIT 1] keeps is one of the
    rows and no row is older. *)
Lemma head_order_by_created_at l h :
  head (Job.order_by_created_at l) = Some h →
  h ∈ l ∧ ∀ x, x ∈ l → job_created_at h ≤ job_created_at x.
Proof.
  revert h. induction l as [|a l IH]; intros h; simpl; [intros [=]|].
  intros Hh. apply head_insert_by_created_at in Hh as [[-> Hmin]|[Hh Hlt]].
  - split; [left|]. intros x Hx. apply elem_of_cons in Hx as [->|Hx]; [lia|].
    destruct (head (Job.order_by_created_at l)) as [y|] eqn:Hy.
    + destruct (IH y eq_refl) as [_ Hall].
      specialize (Hmin y eq_refl). specialize (Hall x Hx). lia.
    + apply head_None in Hy.
      pose proof (order_by_created_at_perm l) as Hp. rewrite Hy in Hp.
      apply Permutation_nil_l in Hp. subst l. by apply elem_of_nil in Hx.
  - destruct (IH h Hh) as [Hin Hall]. split; [by right|].
    intros x Hx. apply elem_of_cons in Hx as [->|Hx]; [lia|by apply Hall].
Qed.

Lemma head_order_by_created_at_None l :
  head (Job.order_by_created_at l) = None ↔ l = [].
Proof.
  rewrite head_None. split.
  - intros H. pose proof (order_by_created_at_perm l) as Hp.
    rewrite H in Hp. by apply Permutation_nil_l in Hp.
  - by intros ->.
Qed.

End ordering.

Lemma select_next_pending_None T d :
  Job.select_next_pending T d = None ↔ ∀ r, r ∈ jobs d → ¬ Job.pending_of T r.
Proof.
  unfold Job.select_next_pending. rewrite head_order_by_created_at_None. split.
  - intros H r Hr HP.
    assert (r ∈ filter (Job.pending_of T) (jobs d)) as Hin
      by (by apply list_elem_of_filter).
    rewrite H in Hin. by apply elem_of_nil in Hin.
  - intros H. destruct (filter _ _) as [|x l] eqn:E; [done|].
    assert (x ∈ filter (Job.pending_of T) (jobs d)) as Hx by (rewrite E; left).
    apply list_elem_of_filter in Hx as [HP Hx]. by destruct (H x Hx).
Qed.

Lemma select_next_pending_Some T d job :
  Job.select_next_pending T d = Some job →
  job ∈ jobs d ∧ job_status job = pending ∧ job_type job = T ∧
  ∀ r, r ∈ jobs d → Job.pending_of T r → job_created_at job ≤ job_created_at r.
Proof.
  unfold Job.select_next_pending. intros H.
  apply head_order_by_created_at in H as [Hin Hmin].
  apply list_elem_of_filter in Hin as [[Hs Ht] Hin].
  repeat split; [done..|].
  intros r Hr HP. apply Hmin. by apply list_elem_of_filter.
Qed.

(** What the compare-and-set UPDATE does to the table, row by row. *)
Lemma claim_update_rows now id d i r :
  jobs d !! i = Some r →
  jobs (Job.claim_update now id d).1 !! i =
    Some (if decide (job_id r = id ∧ job_status r = pending)
          then Job.mark_processing now r else r).
Proof.
  intros H. unfold Job.claim_update; simpl.
  rewrite list_lookup_fmap, H. simpl. unfold Job.claimable.
  by repeat case_decide.
Qed.

Lemma claim_update_frame now id d :
  length (jobs (Job.claim_update now id d).1) = length (jobs d) ∧
  jobs_seq (Job.claim_update now id d).1 = jobs_seq d ∧
  workers (Job.claim_update now id d).1 = workers d ∧
  workers_seq (Job.claim_update now id d).1 = workers_seq d.
Proof. unfold Job.claim_update; simpl. by rewrite length_fmap. Qed.

(** C1. [getNextPending(T)]: with no pending job of type [T] the result is
    null and nothing is written.  Otherwise a pending job of type [T] with
    the oldest [created_at] is selected; the UPDATE then runs on the table
    as it is after the [await]: every row that has the candidate's id and
    is still [pending] gets status [processing] and the time of the UPDATE
    as [updated_at] and keeps its other columns, and every other row is
    left as it is.  The result is null when the UPDATE changed no row;
    otherwise it is the selected job, and a row of its id now reads
    [processing]. *)
Theorem getNextPending_spec (env : database → database) (now : nat) (T : string)
    (d : database) :
  ((∀ r, r ∈ jobs d → ¬ Job.pending_of T r) →
     Job.getNextPending env now T d = (d, None)) ∧
  ((∃ r, r ∈ jobs d ∧ Job.pending_of T r) →
     ∃ job,
       Job.select_next_pending T d = Some job ∧
       job ∈ jobs d ∧ job_status job = pending ∧ job_type job = T ∧
       (∀ r, r ∈ jobs d → Job.pending_of T r →
             job_created_at job ≤ job_created_at r) ∧
       let changes :=
         length (filter (λ r, job_id r = job_id job ∧ job_status r = pending)
                        (jobs (env d))) in
       let d' := (Job.getNextPending env now T d).1 in
       (∀ i r, jobs (env d) !! i = Some r →
               ∃ r', jobs d' !! i = Some r' ∧
                 if decide (job_id r = job_id job ∧ job_status r = pending)
                 then job_status r' = "processing"%string ∧
                      job_updated_at r' = now ∧
                      job_id r' = job_id r ∧ job_type r' = job_type r ∧
                      job_payload r' = job_payload r ∧
                      job_worker_id r' = job_worker_id r ∧
                      job_result r' = job_result r ∧
                      job_created_at r' = job_created_at r
                 else r' = r) ∧
       length (jobs d') = length (jobs (env d)) ∧
       workers d' = workers (env d) ∧
       (Job.getNextPending env now T d).2 =
         (if decide (changes = 0) then None else Some job) ∧
       (changes ≠ 0 →
        ∃ r', r' ∈ jobs d' ∧ job_id r' = job_id job ∧
              job_status r' = "processing"%string)).
Proof.
  split.
  - intros Hnone. apply select_next_pending_None in Hnone.
    unfold Job.getNextPending. by rewrite Hnone.
  - intros (r & Hr & HP).
    destruct (Job.select_next_pending T d) as [job|] eqn:Hsel.
    2: { by destruct (proj1 (select_next_pending_None T d) Hsel r Hr). }
    exists job. split; [done|].
    destruct (select_next_pending_Some _ _ _ Hsel) as (Hin & Hs & Ht & Hmin).
    repeat (split; [done|]).
    unfold Job.getNextPending. rewrite Hsel.
    destruct (Job.claim_update now (job_id job) (env d)) as [d1 changes] eqn:Hcas.
    assert (d1 = (Job.claim_update now (job_id job) (env d)).1) as Hd1
      by (by rewrite Hcas).
    assert (changes = length (filter (Job.claimable (job_id job)) (jobs (env d))))
      as Hch by (unfold Job.claim_update in Hcas; by inversion Hcas).
    cbv zeta. fold (Job.claimable (job_id job)). rewrite <- Hch.
    destruct (claim_update_frame now (job_id job) (env d)) as (Hl & _ & Hw & _).
    assert (∀ i r0, jobs (env d) !! i = Some r0 →
              ∃ r', jobs d1 !! i = Some r' ∧
                if decide (job_id r0 = job_id job ∧ job_status r0 = pending)
                then job_status r' = "processing"%string ∧
                     job_updated_at r' = now ∧
                     job_id r' = job_id r0 ∧ job_type r' = job_type r0 ∧
                     job_payload r' = job_payload r0 ∧
                     job_worker_id r' = job_worker_id r0 ∧
                     job_result r' = job_result r0 ∧
                     job_created_at r' = job_created_at r0
                else r' = r0) as Hrows.
    { intros i r0 Hi. eexists. subst d1.
      split; [by apply claim_update_rows|]. by case_decide. }
    assert (changes ≠ 0 →
            ∃ r', r' ∈ jobs d1 ∧ job_id r' = job_id job ∧
                  job_status r' = "processing"%string) as Hwon.
    { intros Hne. rewrite Hch in Hne.
      destruct (filter _ _) as [|r0 l] eqn:E; [done|].
      assert (r0 ∈ filter (Job.claimable (job_id job)) (jobs (env d))) as Hr0
        by (rewrite E; left).
      apply list_elem_of_filter in Hr0 as [Hc Hr0].
      apply list_elem_of_lookup in Hr0 as [i Hi].
      destruct (Hrows i r0 Hi) as (r' & Hr' & Hif).
      rewrite decide_True in Hif by exact Hc.
      destruct Hif as (? & _ & Hid & _). destruct Hc as [Hc _].
      exists r'. split; [by eapply list_elem_of_lookup_2|].
      split; [congruence|done]. }
    case_decide; simpl; subst d1; (split; [exact Hrows|done]).
Qed.

(** ** Rows keep their identity *)

Section rows.

Context {A : Type} (key : A → nat).
Implicit Types (l : list A) (f : A → A).

Lemma head_filter_key_fmap f l k :
  (∀ x, key (f x) = key x) →
  head (filter (λ x, key x = k) (f <$> l)) =
    f <$> head (filter (λ x, key x = k) l).
Proof.
  intros Hf. induction l as [|a l IH]; [done|].
  rewrite fmap_cons, !filter_cons, Hf.
  case_decide; [done|apply IH].
Qed.

Lemma head_filter_key_app l l' k x :
  head (filter (λ x, key x = k) l) = Some x →
  head (filter (λ x, key x = k) (l ++ l')) = Some x.
Proof.
  rewrite filter_app. destruct (filter _ l); [done|]. by simpl.
Qed.

Lemma head_filter_key_unique l x :
  NoDup (key <$> l) → x ∈ l →
  head (filter (λ y, key y = key x) l) = Some x.
Proof.
  induction l as [|a l IH]; intros Hnd Hx; [by apply elem_of_nil in Hx|].
  rewrite fmap_cons in Hnd. apply NoDup_cons in Hnd as [Ha Hnd].
  rewrite filter_cons. apply elem_of_cons in Hx as [->|Hx].
  - by rewrite decide_True.
  - rewrite decide_False; [by apply IH|].
    intros Heq. apply Ha. rewrite Heq. by apply list_elem_of_fmap_2.
Qed.

Lemma fmap_key_fmap f l :
  (∀ x, key (f x) = key x) → key <$> (f <$> l) = key <$> l.
Proof.
  intros Hf. rewrite <- list_fmap_compose. apply list_fmap_ext.
  intros ? x _. simpl. apply Hf.
Qed.

End rows.

Lemma claim_update_id now id r :
  job_id (if decide (Job.claimable id r) then Job.mark_processing now r else r)
  = job_id r.
Proof. by case_decide. Qed.

Lemma overwrite_id now id status workerId result r :
  job_id (if decide (job_id r = id)
          then Job.overwrite now status workerId result r else r) = job_id r.
Proof. by case_decide. Qed.

Lemma find_job_claim_update now id id' d :
  App.find_job id' (Job.claim_update now id d).1 =
    (λ r, if decide (Job.claimable id r) then Job.mark_processing now r else r)
      <$> App.find_job id' d.
Proof.
  unfold App.find_job, Job.claim_update; simpl.
  apply (head_filter_key_fmap job_id). intros r. apply claim_update_id.
Qed.

Lemma find_job_updateStatus now id id' status workerId result d :
  App.find_job id' (Job.updateStatus now id status workerId result d) =
    (λ r, if decide (job_id r = id)
          then Job.overwrite now status workerId result r else r)
      <$> App.find_job id' d.
Proof.
  unfold App.find_job, Job.updateStatus; simpl.
  apply (head_filter_key_fmap job_id). intros r. apply overwrite_id.
Qed.

Lemma find_job_create now T p d id r :
  App.find_job id d = Some r →
  App.find_job id (Job.create now T p d).1 = Some r.
Proof.
  unfold App.find_job, Job.create; simpl. apply (head_filter_key_app job_id).
Qed.

Lemma find_job_same d d' id : same_jobs d d' → App.find_job id d' = App.find_job id d.
Proof. intros [H _]. unfold App.find_job. by rewrite H. Qed.

Lemma find_job_Some id d r : App.find_job id d = Some r → r ∈ jobs d ∧ job_id r = id.
Proof.
  unfold App.find_job. intros H. apply head_Some_elem_of in H.
  by apply list_elem_of_filter in H as [? ?].
Qed.

(** *** What a claim leaves in the table *)

Lemma getNextPending_store env now T d :
  Job.getNextPending env now T d = (d, None) ∨
  ∃ job, Job.select_next_pending T d = Some job ∧
    (Job.getNextPending env now T d).1 = (Job.claim_update now (job_id job) (env d)).1 ∧
    (Job.getNextPending env now T d).2 =
      if decide (length (filter (Job.claimable (job_id job)) (jobs (env d))) = 0)
      then None else Some job.
Proof.
  unfold Job.getNextPending.
  destruct (Job.select_next_pending T d) as [job|]; [right|by left].
  exists job. split; [done|]. unfold Job.claim_update. by case_decide.
Qed.

Lemma getNextPending_Some env now T d job :
  (Job.getNextPending env now T d).2 = Some job →
  Job.select_next_pending T d = Some job ∧
  (Job.getNextPending env now T d).1 = (Job.claim_update now (job_id job) (env d)).1 ∧
  ∃ r, r ∈ jobs (env d) ∧ Job.claimable (job_id job) r.
Proof.
  destruct (getNextPending_store env now T d) as [->|(j & Hsel & Hst & Hres)];
    [done|].
  rewrite Hres. case_decide as Hch; [done|]. intros [= <-].
  repeat split; [done..|].
  destruct (filter (Job.claimable (job_id j)) (jobs (env d))) as [|r l] eqn:E;
    [done|].
  assert (r ∈ filter (Job.claimable (job_id j)) (jobs (env d))) as Hr
    by (rewrite E; left).
  apply list_elem_of_filter in Hr as [? ?]. by exists r.
Qed.

(** ** What each request does to the [jobs] table *)

Lemma same_jobs_refl d : same_jobs d d.
Proof. done. Qed.

Lemma same_jobs_trans d1 d2 d3 : same_jobs d1 d2 → same_jobs d2 d3 → same_jobs d1 d3.
Proof. intros [? ?] [? ?]. split; congruence. Qed.

Lemma createWorker_same_jobs now T s :
  same_jobs s.1 (WorkerManager.createWorker now T s).1.1.
Proof. by destruct s as [d m]. Qed.

Lemma repeat_createWorker_same_jobs {B} now T (l : list B) s :
  same_jobs s.1 (foldl (λ s _, (WorkerManager.createWorker now T s).1) s l).1.
Proof.
  revert s. induction l as [|b l IH]; intros s; simpl; [done|].
  eapply same_jobs_trans; [apply (createWorker_same_jobs now T s)|apply IH].
Qed.

Lemma scaleWorkers_same_jobs now T count s :
  same_jobs s.1 (WorkerManager.scaleWorkers now T count s).1.
Proof.
  unfold WorkerManager.scaleWorkers. repeat case_decide; [|done..].
  apply repeat_createWorker_same_jobs.
Qed.

Lemma seed_same_jobs now s : same_jobs s.1 (App.seed now s).1.
Proof.
  unfold App.seed. generalize config.jobTypes. intros l. revert s.
  induction l as [|T l IH]; intros s; simpl; [done|].
  eapply same_jobs_trans; [|apply IH].
  eapply same_jobs_trans; [apply (createWorker_same_jobs now T s)|done].
Qed.

Lemma startServer_jobs now : jobs (App.db (App.startServer now empty_db)) = [] ∧
  jobs_seq (App.db (App.startServer now empty_db)) = 0.
Proof.
  destruct (seed_same_jobs now (empty_db, WorkerManager.empty)) as [Hj Hs].
  unfold App.startServer. rewrite decide_True by done.
  cbn [App.db WorkerManager.init Worker.getAll workers empty_db foldl].
  by rewrite Hj, Hs.
Qed.

Lemma handle_jobs now req c :
  let d := App.db c in
  let d' := App.db (App.handle now req c).1 in
  match req with
  | App.PostJob _ _ =>
      d' = d ∨ ∃ T p, d' = (Job.create now T p d).1
  | App.PatchJob id status workerId result =>
      d' = Job.updateStatus now id status workerId result d
  | App.GetNextJob T =>
      d' = (Job.getNextPending id now T d).1
  | _ => same_jobs d d'
  end.
Proof.
  destruct req as [type payload|id|id status w r|T|type|id|id status|type count| |id];
    simpl.
  - repeat case_match; simpl; eauto.
  - by case_match.
  - done.
  - by destruct (Job.getNextPending id now T (App.db c)).
  - repeat case_match; simpl; done.
  - repeat case_match; simpl; done.
  - done.
  - repeat case_match; simpl; try done.
    match goal with
    | H : WorkerManager.scaleWorkers ?n ?T ?k ?s = _ |- _ =>
        pose proof (scaleWorkers_same_jobs n T k s) as Hs; by rewrite H in Hs
    end.
  - done.
  - by case_match.
Qed.

Lemma jobs_keyed_same d d' : same_jobs d d' → jobs_keyed d → jobs_keyed d'.
Proof. intros [Hj Hs] [? ?]. unfold jobs_keyed. by rewrite Hj, Hs. Qed.

Lemma jobs_keyed_create now T p d : jobs_keyed d → jobs_keyed (Job.create now T p d).1.
Proof.
  intros [Hnd Hle]. unfold jobs_keyed, Job.create; simpl. split.
  - rewrite fmap_app. simpl. apply NoDup_app. split; [done|]. split.
    + intros k Hk Hk'. apply list_elem_of_fmap in Hk as (r & -> & Hr).
      apply list_elem_of_singleton in Hk'. specialize (Hle r Hr). lia.
    + apply NoDup_singleton.
  - intros r [Hr|Hr]%elem_of_app.
    + specialize (Hle r Hr). lia.
    + apply list_elem_of_singleton in Hr as ->. simpl. lia.
Qed.

Lemma jobs_keyed_fmap f d :
  (∀ r, job_id (f r) = job_id r) →
  jobs_keyed d → jobs_keyed (with_jobs (f <$> jobs d) d).
Proof.
  intros Hf [Hnd Hle]. unfold jobs_keyed; simpl. split.
  - by rewrite (fmap_key_fmap job_id).
  - intros r (r0 & -> & Hr)%list_elem_of_fmap. rewrite Hf. by apply Hle.
Qed.

Lemma jobs_keyed_claim_update now id d :
  jobs_keyed d → jobs_keyed (Job.claim_update now id d).1.
Proof. apply jobs_keyed_fmap. intros r. apply claim_update_id. Qed.

Lemma jobs_keyed_updateStatus now id status w res d :
  jobs_keyed d → jobs_keyed (Job.updateStatus now id status w res d).
Proof. apply jobs_keyed_fmap. intros r. apply overwrite_id. Qed.

Lemma jobs_keyed_handle now req c :
  jobs_keyed (App.db c) → jobs_keyed (App.db (App.handle now req c).1).
Proof.
  intros Hk. pose proof (handle_jobs now req c) as H. cbv zeta in H.
  destruct req; try (by eapply jobs_keyed_same).
  - destruct H as [->|(T & p & ->)]; [done|by apply jobs_keyed_create].
  - rewrite H. by apply jobs_keyed_updateStatus.
  - rewrite H.
    destruct (getNextPending_store id now type (App.db c)) as [->|(j & _ & -> & _)];
      [done|by apply jobs_keyed_claim_update].
Qed.

Lemma reachable_jobs_keyed c : App.reachable c → jobs_keyed (App.db c).
Proof.
  induction 1 as [now|now req c _ IH].
  - destruct (startServer_jobs now) as [Hj Hs]. unfold jobs_keyed.
    rewrite Hj, Hs. split; [constructor|]. by intros r Hr%elem_of_nil.
  - by apply jobs_keyed_handle.
Qed.

(** The same for the primary key of [workers]. *)
Lemma workers_keyed_create now T d :
  workers_keyed d → workers_keyed (Worker.create now T d).1.
Proof.
  intros [Hnd Hle]. unfold workers_keyed, Worker.create; simpl. split.
  - rewrite fmap_app. simpl. apply NoDup_app. split; [done|]. split.
    + intros k Hk Hk'. apply list_elem_of_fmap in Hk as (w & -> & Hw).
      apply list_elem_of_singleton in Hk'. specialize (Hle w Hw). lia.
    + apply NoDup_singleton.
  - intros w [Hw|Hw]%elem_of_app.
    + specialize (Hle w Hw). lia.
    + apply list_elem_of_singleton in Hw as ->. simpl. lia.
Qed.

Lemma workers_keyed_createWorker now T s :
  workers_keyed s.1 → workers_keyed (WorkerManager.createWorker now T s).1.1.
Proof. destruct s as [d m]. apply workers_keyed_create. Qed.

Lemma workers_keyed_repeat_createWorker {B} now T (l : list B) s :
  workers_keyed s.1 →
  workers_keyed (foldl (λ s _, (WorkerManager.createWorker now T s).1) s l).1.
Proof.
  revert s. induction l as [|b l IH]; intros s Hs; simpl; [done|].
  apply IH. by apply workers_keyed_createWorker.
Qed.

Lemma workers_keyed_scaleWorkers now T count s :
  workers_keyed s.1 → workers_keyed (WorkerManager.scaleWorkers now T count s).1.
Proof.
  intros Hs. unfold WorkerManager.scaleWorkers. repeat case_decide; [|done..].
  by apply workers_keyed_repeat_createWorker.
Qed.

Lemma workers_keyed_seed now s : workers_keyed s.1 → workers_keyed (App.seed now s).1.
Proof.
  unfold App.seed. generalize config.jobTypes. intros l. revert s.
  induction l as [|T l IH]; intros s Hs; simpl; [done|].
  apply IH. by apply workers_keyed_createWorker.
Qed.

Lemma workers_keyed_updateStatus now id status d :
  workers_keyed d → workers_keyed (Worker.updateStatus now id status d).
Proof.
  intros [Hnd Hle]. unfold workers_keyed, Worker.updateStatus; simpl.
  assert (∀ w, worker_id (if decide (worker_id w = id)
                          then Worker.set_status now status w else w)
               = worker_id w) as Hid by (intros w; by case_decide).
  split.
  - by rewrite (fmap_key_fmap worker_id).
  - intros w (w0 & -> & Hw)%list_elem_of_fmap. rewrite Hid. by apply Hle.
Qed.

Lemma workers_keyed_same d d' :
  workers d' = workers d → workers_seq d' = workers_seq d →
  workers_keyed d → workers_keyed d'.
Proof. intros Hw Hs. unfold workers_keyed. by rewrite Hw, Hs. Qed.

Lemma workers_keyed_handle now req c :
  workers_keyed (App.db c) → workers_keyed (App.db (App.handle now req c).1).
Proof.
  intros Hk.
  destruct req as [type payload|i|i status w r|T|type|i|i status|type count| |i];
    simpl.
  - repeat case_match; simpl; try done.
  - by case_match.
  - done.
  - destruct (getNextPending_store id now T (App.db c)) as [H|(j & _ & H & _)];
      destruct (Job.getNextPending id now T (App.db c)) as [d' res];
      simpl in *; [by simplify_eq|]. by subst d'.
  - repeat case_match; simpl; try done. by apply workers_keyed_create.
  - repeat case_match; simpl; done.
  - by apply workers_keyed_updateStatus.
  - repeat case_match; simpl; try done.
    match goal with
    | H : WorkerManager.scaleWorkers ?n ?T ?k ?s = _ |- _ =>
        pose proof (workers_keyed_scaleWorkers n T k s Hk) as Hs;
        by rewrite H in Hs
    end.
  - done.
  - by case_match.
Qed.

(** In every reachable state both primary keys hold. *)
Lemma reachable_workers_keyed c : App.reachable c → workers_keyed (App.db c).
Proof.
  induction 1 as [now|now req c _ IH].
  - unfold App.startServer. rewrite decide_True by done.
    apply (workers_keyed_seed now
             (empty_db, WorkerManager.init empty_db WorkerManager.empty)).
    split; [constructor|]. by intros w Hw%elem_of_nil.
  - by apply workers_keyed_handle.
Qed.

Lemma getNextPending_env env env' now T d :
  env d = env' d → Job.getNextPending env now T d = Job.getNextPending env' now T d.
Proof. intros H. unfold Job.getNextPending. by rewrite H. Qed.

Lemma handle_GetNextJob now T c :
  (App.handle now (App.GetNextJob T) c).2 =
    (200, App.BJob (Job.getNextPending id now T (App.db c)).2) ∧
  App.db (App.handle now (App.GetNextJob T) c).1 =
    (Job.getNextPending id now T (App.db c)).1.
Proof. simpl. by destruct (Job.getNextPending id now T (App.db c)). Qed.

(** C10. A successful claim hands back the row as the SELECT read it: its
    [status] is still [pending], while the row of that id in the table now
    reads [processing]; [GET /api/jobs/next/:type] answers with that same
    stale row. *)
Theorem claimed_job_reads_pending (env : database → database) (now : nat)
    (T : string) (d : database) (job : job_row) :
  NoDup (job_id <$> jobs (env d)) →
  (Job.getNextPending env now T d).2 = Some job →
  job ∈ jobs d ∧ job_status job = pending ∧
  (∃ r, App.find_job (job_id job) (Job.getNextPending env now T d).1 = Some r ∧
        job_status r = processing) ∧
  (∀ c, App.db c = d → env d = d →
        (App.handle now (App.GetNextJob T) c).2 = (200, App.BJob (Some job)) ∧
        ∃ r, App.find_job (job_id job)
               (App.db (App.handle now (App.GetNextJob T) c).1) = Some r ∧
             job_status r = processing).
Proof.
  intros Hnd Hres.
  destruct (getNextPending_Some _ _ _ _ _ Hres) as (Hsel & Hst & r & Hr & Hid & Hp).
  destruct (select_next_pending_Some _ _ _ Hsel) as (Hin & Hs & _).
  assert (∃ r', App.find_job (job_id job) (Job.getNextPending env now T d).1
                  = Some r' ∧ job_status r' = processing) as Hstore.
  { exists (Job.mark_processing now r). split; [|done].
    rewrite Hst, find_job_claim_update. unfold App.find_job.
    rewrite <- Hid, (head_filter_key_unique job_id) by done. simpl.
    rewrite decide_True; [done|]. by split. }
  do 3 (split; [done|]).
  intros c Hc Henv.
  destruct (handle_GetNextJob now T c) as [-> ->]. rewrite Hc.
  rewrite <- (getNextPending_env env id) by done.
  by rewrite Hres.
Qed.

(** ** Status changes at the HTTP interface *)

(** C3 (as the code has it). [PATCH /api/jobs/:id] writes the status it is
    given over whatever the job had, and leaves the status of every other
    job alone; a claim leaves a status alone or moves it from [pending] to
    [processing]; no other request changes the status of a job. *)
Theorem status_after_request (now : nat) (req : App.request)
    (c : App.coordinator) (jobId : nat) (r : job_row) :
  App.find_job jobId (App.db c) = Some r →
  ∃ r', App.find_job jobId (App.db (App.handle now req c).1) = Some r' ∧
    match req with
    | App.PatchJob id' status _ _ =>
        job_status r' = if decide (id' = jobId) then status else job_status r
    | App.GetNextJob _ =>
        job_status r' = job_status r ∨
        (job_status r = pending ∧ job_status r' = processing)
    | _ => job_status r' = job_status r
    end.
Proof.
  intros Hr. pose proof (handle_jobs now req c) as H. cbv zeta in H.
  destruct (find_job_Some _ _ _ Hr) as [_ Hid].
  destruct req as [type payload|i|i status w res|T|type|i|i status|type count| |i];
    try (exists r; split; [by rewrite (find_job_same _ _ _ H)|done]).
  - destruct H as [->|(T & p & ->)]; exists r; [done|].
    split; [by apply find_job_create|done].
  - rewrite H, find_job_updateStatus, Hr. simpl.
    eexists; split; [done|]. rewrite Hid.
    destruct (decide (i = jobId)) as [->|Hne].
    + by rewrite !decide_True.
    + by rewrite !decide_False.
  - rewrite H.
    destruct (getNextPending_store id now T (App.db c)) as [->|(j & _ & -> & _)].
    + exists r. split; [done|by left].
    + unfold id. rewrite find_job_claim_update, Hr. simpl. eexists; split; [done|].
      case_decide as Hc; [right|by left]. by destruct Hc.
Qed.

(** ** The counters of [GET /api/stats] *)

Lemma statuses_distinct :
  pending ≠ processing ∧ pending ≠ completed ∧ pending ≠ failed ∧
  processing ≠ completed ∧ processing ≠ failed ∧ completed ≠ failed.
Proof. by repeat split. Qed.

(** Counted on one table, the four counters count exactly the rows whose
    status is one of the four. *)
Lemma sum_counts_known d :
  Job.count_status pending d + Job.count_status processing d +
  Job.count_status completed d + Job.count_status failed d =
    length (filter (λ r, known_status (job_status r)) (jobs d)).
Proof.
  unfold Job.count_status; simpl.
  destruct statuses_distinct as (? & ? & ? & ? & ? & ?).
  induction (jobs d) as [|a l IH]; [done|].
  rewrite !filter_cons. unfold known_status in *.
  repeat case_decide; simpl; try lia; exfalso;
    try (intuition congruence).
Qed.

Lemma filter_all {A} (P : A → Prop) `{∀ x, Decision (P x)} (l : list A) :
  (∀ x, x ∈ l → P x) → filter P l = l.
Proof.
  induction l as [|a l IH]; intros H'; [done|].
  rewrite filter_cons_True by (apply H'; left).
  f_equal. apply IH. intros x Hx. apply H'. by right.
Qed.

Lemma all_known_same d d' : same_jobs d d' → all_known d → all_known d'.
Proof. intros [Hj _] Hk. unfold all_known. by rewrite Hj. Qed.

Lemma all_known_create now T p d : all_known d → all_known (Job.create now T p d).1.
Proof.
  intros Hk r [Hr|Hr]%elem_of_app; [by apply Hk|].
  apply list_elem_of_singleton in Hr as ->. by left.
Qed.

Lemma all_known_claim_update now id d :
  all_known d → all_known (Job.claim_update now id d).1.
Proof.
  intros Hk r (r0 & -> & Hr)%list_elem_of_fmap.
  case_decide; [right; by left|by apply Hk].
Qed.

Lemma all_known_updateStatus now id status w res d :
  known_status status → all_known d →
  all_known (Job.updateStatus now id status w res d).
Proof.
  intros Hs Hk r (r0 & -> & Hr)%list_elem_of_fmap.
  case_decide; [done|by apply Hk].
Qed.

Lemma all_known_handle now req c :
  patches_known req → all_known (App.db c) →
  all_known (App.db (App.handle now req c).1).
Proof.
  intros Hreq Hk. pose proof (handle_jobs now req c) as H. cbv zeta in H.
  destruct req; try (by eapply all_known_same).
  - destruct H as [->|(T & p & ->)]; [done|by apply all_known_create].
  - rewrite H. by apply all_known_updateStatus.
  - rewrite H.
    destruct (getNextPending_store id now type (App.db c)) as [->|(j & _ & -> & _)];
      [done|by apply all_known_claim_update].
Qed.

Lemma all_known_serve c reqs :
  Forall (λ r, patches_known r.2) reqs → all_known (App.db c) →
  all_known (App.db (App.serve c reqs)).
Proof.
  intros Hreqs. revert c. induction Hreqs as [|[now req] reqs Hreq _ IH];
    intros c Hk; [done|].
  simpl. apply IH. by apply all_known_handle.
Qed.

Lemma reachable_serve c :
  App.reachable c ↔ ∃ now0 reqs, c = App.serve (App.startServer now0 empty_db) reqs.
Proof.
  split.
  - induction 1 as [now|now req c _ (now0 & reqs & ->)].
    + by exists now, [].
    + exists now0, (reqs ++ [(now, req)]). unfold App.serve.
      by rewrite foldl_snoc.
  - intros (now0 & reqs & ->). induction reqs as [|[now req] reqs IH] using rev_ind.
    + constructor.
    + unfold App.serve. rewrite foldl_snoc. by constructor.
Qed.

(** A count depends on the statuses of the rows only. *)
Lemma count_status_statuses s d d' :
  job_status <$> jobs d' = job_status <$> jobs d →
  Job.count_status s d' = Job.count_status s d.
Proof.
  unfold Job.count_status. generalize (jobs d) (jobs d').
  intros l l'. revert l. induction l' as [|a' l' IH]; intros [|a l] H;
    try done.
  injection H as Ha Hl. rewrite !filter_cons, Ha.
  case_decide; simpl; by rewrite (IH l).
Qed.

(** C4 (as the code has it). [GET /api/stats] reads the four counters with
    four statements, and each counter is the number of rows of its status
    in the table as it is when its statement runs.  In every state reachable
    through the HTTP interface, when no other request adds a job or changes
    a status between the first and the last of the four, the counters add
    up to the number of job rows whose status is one of the four, hence to
    at most the number of rows; they add up to the number of rows when
    every PATCH of a job so far carried one of the four statuses. *)
Theorem stats_sum (c : App.coordinator) (env : nat → database → database) :
  App.reachable c →
  ∃ js ws,
    (App.getStats env c).2 = (200, App.BStats js ws) ∧
    Job.st_pending js =
      length (filter (λ r, job_status r = "pending"%string) (jobs (App.db c))) ∧
    Job.st_processing js =
      length (filter (λ r, job_status r = "processing"%string)
                (jobs (env 1 (App.db c)))) ∧
    Job.st_completed js =
      length (filter (λ r, job_status r = "completed"%string)
                (jobs (env 2 (env 1 (App.db c))))) ∧
    Job.st_failed js =
      length (filter (λ r, job_status r = "failed"%string)
                (jobs (env 3 (env 2 (env 1 (App.db c)))))) ∧
    (undisturbed env (App.db c) →
       sum_counts js =
         length (filter (λ r, known_status (job_status r)) (jobs (App.db c))) ∧
       sum_counts js ≤ length (jobs (App.db c)) ∧
       (∀ now0 reqs,
          c = App.serve (App.startServer now0 empty_db) reqs →
          Forall (λ r, patches_known r.2) reqs →
          sum_counts js = length (jobs (App.db c)))).
Proof.
  intros _. eexists _, _. split; [reflexivity|].
  do 4 (split; [reflexivity|]).
  intros (H1 & H2 & H3). unfold sum_counts; cbn [Job.st_pending
    Job.st_processing Job.st_completed Job.st_failed].
  rewrite (count_status_statuses _ _ _ H1), (count_status_statuses _ _ _ H2),
    (count_status_statuses _ _ _ H3), sum_counts_known.
  split; [done|]. split; [apply length_filter|].
  intros now0 reqs -> Hreqs. f_equal. apply filter_all.
  apply all_known_serve; [done|].
  intros r Hr. destruct (startServer_jobs now0) as [Hj _].
  rewrite Hj in Hr. by apply elem_of_nil in Hr.
Qed.

(** ** The completion handlers *)

Lemma database_eq d d' :
  jobs d = jobs d' → jobs_seq d = jobs_seq d' →
  workers d = workers d' → workers_seq d = workers_seq d' → d = d'.
Proof. destruct d, d'; simpl; congruence. Qed.

Lemma job_updateStatus_twice now1 now2 id status w res d :
  Job.updateStatus now2 id status w res (Job.updateStatus now1 id status w res d)
  = Job.updateStatus now2 id status w res d.
Proof.
  apply database_eq; try done. simpl.
  rewrite <- list_fmap_compose. apply list_fmap_ext. intros _ r _. simpl.
  rewrite overwrite_id. by repeat case_decide.
Qed.

Lemma job_updateStatus_state now1 now2 id status w res d :
  job_state <$> jobs (Job.updateStatus now2 id status w res d)
  = job_state <$> jobs (Job.updateStatus now1 id status w res d).
Proof.
  simpl. rewrite <- !list_fmap_compose. apply list_fmap_ext. intros _ r _. simpl.
  by case_decide.
Qed.

Lemma worker_updateStatus_twice now1 now2 id status d :
  Worker.updateStatus now2 id status (Worker.updateStatus now1 id status d)
  = Worker.updateStatus now2 id status d.
Proof.
  apply database_eq; try done. simpl.
  rewrite <- list_fmap_compose. apply list_fmap_ext. intros _ w _. simpl.
  destruct (decide (worker_id w = id)) as [Hw|Hw]; simpl.
  - by rewrite decide_True.
  - by rewrite decide_False.
Qed.

Lemma worker_updateStatus_state now1 now2 id status d :
  worker_state <$> workers (Worker.updateStatus now2 id status d)
  = worker_state <$> workers (Worker.updateStatus now1 id status d).
Proof.
  simpl. rewrite <- !list_fmap_compose. apply list_fmap_ext. intros _ w _. simpl.
  by case_decide.
Qed.

Lemma updateStatus_commute now now' id status w res id' status' d :
  Job.updateStatus now id status w res (Worker.updateStatus now' id' status' d)
  = Worker.updateStatus now' id' status' (Job.updateStatus now id status w res d).
Proof. by apply database_eq. Qed.

Lemma finish_twice now1 now2 jobId workerId status res d :
  let finish now d :=
    Worker.updateStatus now workerId "idle"
      (Job.updateStatus now jobId status (Some workerId) res d) in
  finish now2 (finish now1 d) = finish now2 d ∧
  job_state <$> jobs (finish now2 (finish now1 d)) = job_state <$> jobs (finish now1 d) ∧
  worker_state <$> workers (finish now2 (finish now1 d))
    = worker_state <$> workers (finish now1 d).
Proof.
  intros finish.
  assert (finish now2 (finish now1 d) = finish now2 d) as Heq.
  { unfold finish.
    by rewrite updateStatus_commute, job_updateStatus_twice,
      worker_updateStatus_twice. }
  split; [done|]. rewrite Heq. unfold finish. split.
  - change (jobs (Worker.updateStatus ?n ?i ?s ?x)) with (jobs x).
    apply (job_updateStatus_state now1 now2).
  - rewrite <- !updateStatus_commute.
    change (workers (Job.updateStatus ?n ?i ?s ?w ?r ?x)) with (workers x).
    apply (worker_updateStatus_state now1 now2).
Qed.

(** C7. Delivering the same [worker:job-complete] (or [worker:job-failed])
    message a second time leaves every Job and Worker record as the first
    delivery left it, the refreshed timestamps apart; the whole database is
    what one delivery at the later time gives. *)
Theorem handlers_idempotent (now1 now2 jobId workerId : nat)
    (result : option json) (error : string) (d : database) :
  let complete now := App.onJobComplete now jobId workerId result in
  let fail now := App.onJobFailed now jobId workerId error in
  (job_state <$> jobs (complete now2 (complete now1 d))
     = job_state <$> jobs (complete now1 d) ∧
   worker_state <$> workers (complete now2 (complete now1 d))
     = worker_state <$> workers (complete now1 d) ∧
   complete now2 (complete now1 d) = complete now2 d) ∧
  (job_state <$> jobs (fail now2 (fail now1 d))
     = job_state <$> jobs (fail now1 d) ∧
   worker_state <$> workers (fail now2 (fail now1 d))
     = worker_state <$> workers (fail now1 d) ∧
   fail now2 (fail now1 d) = fail now2 d).
Proof.
  intros complete fail. split.
  - destruct (finish_twice now1 now2 jobId workerId completed result d)
      as (? & ? & ?). done.
  - destruct (finish_twice now1 now2 jobId workerId failed
                (Some (JObj [("error"%string, JStr error)])) d) as (? & ? & ?).
    done.
Qed.

(** ** [processJob] *)

#[local] Arguments Runtime.what : simpl never.
#[local] Arguments String.append : simpl never.

Ltac unfold_processJob :=
  unfold Runtime.processJob, Runtime.logged_rethrow, Runtime.logged_swallow,
    Runtime.perform, Runtime.run_adapter, Runtime.try_catch, Runtime.emit,
    Runtime.throw, mbind, Runtime.M_bind, Runtime.bind, mret, Runtime.M_ret,
    Runtime.ret.

(** Case analysis along the path the run takes. *)
Ltac run_processJob :=
  unfold_processJob;
  repeat (simpl;
          match goal with
          | |- context [match ?net ?s with Some _ => _ | None => _ end] =>
              let E := fresh "E" in destruct (net s) eqn:E
          | |- context [match ?adapter ?j with Runtime.Ok _ => _ | Runtime.Throw _ => _ end] =>
              let E := fresh "E" in destruct (adapter j) eqn:E
          end);
  simpl.

(** The path of a run: which calls are attempted, whether the adapter runs
    and what [processJob] returns or throws depend only on the adapter and
    on the three calls whose [catch] throws again. *)
Lemma processJob_path workerId net adapter job :
  let run := Runtime.processJob workerId net adapter job [] in
  (Runtime.attempts run.1, Runtime.executed run.1, run.2) =
    Runtime.path net adapter job.
Proof.
  unfold Runtime.path. run_processJob; reflexivity.
Qed.

Lemma path_swallowed net net' adapter job :
  (∀ s, Runtime.swallowed s = false → net' s = net s) →
  Runtime.path net' adapter job = Runtime.path net adapter job.
Proof.
  intros H. unfold Runtime.path.
  by rewrite (H Runtime.PatchJobProcessing), (H Runtime.PatchWorkerBusy),
    (H Runtime.PatchJobCompleted).
Qed.

Ltac decide_membership H :=
  unfold Runtime.failure_path in H;
  simpl in H; rewrite ?elem_of_cons, ?elem_of_nil in H;
  try (exfalso; intuition discriminate).

Ltac solve_membership :=
  simpl; rewrite ?elem_of_cons; first [done | intuition done].

Ltac here_or_further :=
  repeat first [apply list_elem_of_here | apply list_elem_of_further].

(** Every attempted call that fails leaves its [console.error] line. *)
Lemma processJob_logged_all workerId net adapter job :
  let run := Runtime.processJob workerId net adapter job [] in
  Forall (λ s, ∀ msg, net s = Some msg →
                (Runtime.what s +:+ msg)%string ∈ Runtime.logged run.1)
         (Runtime.attempts run.1).
Proof.
  cbv zeta. run_processJob;
    repeat (apply Forall_cons_2; [|]); try apply Forall_nil_2;
    intros ?;
    match goal with
    | E : net ?s = _ |- net ?s = _ → _ => rewrite E
    end;
    intros ?; simplify_eq; here_or_further.
Qed.

Lemma processJob_logged workerId net adapter job s msg :
  let run := Runtime.processJob workerId net adapter job [] in
  net s = Some msg → s ∈ Runtime.attempts run.1 →
  (Runtime.what s +:+ msg)%string ∈ Runtime.logged run.1.
Proof.
  intros run Hnet Hs.
  pose proof (processJob_logged_all workerId net adapter job) as H.
  cbv zeta in H. rewrite Forall_forall in H. by apply (H s Hs).
Qed.

(** C6 (as the code has it). In [processJob] a failing PATCH or PUBLISH is
    always logged.  When it is the PATCH of the worker to idle, a PUBLISH, or
    any call of the failure path, it is swallowed: which calls are
    attempted, whether the adapter runs and what [processJob] returns or
    throws do not depend on it.  When it is the PATCH of the job to
    processing, of the worker to busy or of the job to completed, it is
    thrown again: the rest of the success path is skipped (the adapter too,
    for the first two), the three calls of the failure path are attempted,
    and [processJob] throws that error to its caller. *)
Theorem processJob_failures (workerId : nat) (net : Runtime.site → option string)
    (adapter : job_row → Runtime.result json) (job : job_row) :
  let run := Runtime.processJob workerId net adapter job [] in
  (∀ s msg, net s = Some msg → s ∈ Runtime.attempts run.1 →
     (Runtime.what s +:+ msg)%string ∈ Runtime.logged run.1) ∧
  (∀ net',
     (∀ s, Runtime.swallowed s = false → net' s = net s) →
     let run' := Runtime.processJob workerId net' adapter job [] in
     Runtime.attempts run'.1 = Runtime.attempts run.1 ∧
     Runtime.executed run'.1 = Runtime.executed run.1 ∧
     run'.2 = run.2) ∧
  (∀ s msg,
     Runtime.swallowed s = false → net s = Some msg →
     s ∈ Runtime.attempts run.1 →
     run.2 = Runtime.Throw msg ∧
     (∃ before, Runtime.attempts run.1 = before ++ s :: Runtime.failure_path ∧
                before `prefix_of`
                  [Runtime.PatchJobProcessing; Runtime.PatchWorkerBusy]) ∧
     (s ≠ Runtime.PatchJobCompleted → Runtime.executed run.1 = false)).
Proof.
  intros run. split; [|split].
  - intros s msg. apply processJob_logged.
  - intros net' Hnet' run'.
    pose proof (processJob_path workerId net adapter job) as H.
    pose proof (processJob_path workerId net' adapter job) as H'.
    cbv zeta in H, H'. rewrite (path_swallowed net net') in H' by done.
    rewrite <- H in H'. by simplify_eq.
  - intros s msg Hs Hnet Hin.
    pose proof (processJob_path workerId net adapter job) as H.
    cbv zeta in H. fold run in H. unfold Runtime.path in H.
    destruct (net Runtime.PatchJobProcessing) eqn:E1;
      [|destruct (net Runtime.PatchWorkerBusy) eqn:E2;
        [|destruct (adapter job) eqn:E3;
          [destruct (net Runtime.PatchJobCompleted) eqn:E4|]]];
      injection H as Ha He Hr; rewrite Ha in Hin |- *; rewrite He, Hr;
      destruct s; try discriminate Hs; decide_membership Hin;
      simplify_eq; (split; [done|]); (split; [|done]);
      first [ exists []; split; [reflexivity|by eexists]
            | exists [Runtime.PatchJobProcessing]; split; [reflexivity|by eexists]
            | exists [Runtime.PatchJobProcessing; Runtime.PatchWorkerBusy];
              split; [reflexivity|by eexists] ].
Qed.

(** The completion PATCH of a run whose first two calls and adapter
    succeed: it carries the status and the result, and no worker id. *)
Lemma processJob_completion_patch workerId net adapter job v :
  net Runtime.PatchJobProcessing = None →
  net Runtime.PatchWorkerBusy = None →
  adapter job = Runtime.Ok v →
  Runtime.Attempt Runtime.PatchJobCompleted
    (Runtime.Http (App.PatchJob (job_id job) completed None (Some v)))
  ∈ (Runtime.processJob workerId net adapter job []).1.
Proof.
  intros H1 H2 H3. unfold_processJob. rewrite H1, H2, H3.
  run_processJob; rewrite ?elem_of_cons; intuition done.
Qed.

(** C9. [PATCH /api/jobs/:id] overwrites all three columns: with [workerId]
    omitted the job's [worker_id] becomes NULL, with [result] omitted its
    [result] becomes NULL, whatever they held.  The completion PATCH of
    [processJob] omits [workerId], so serving it leaves the job [completed]
    with no worker. *)
Theorem updateStatus_overwrites (now jobId : nat) (status : string)
    (c : App.coordinator) (r : job_row) :
  App.find_job jobId (App.db c) = Some r →
  (∀ result, ∃ r',
     App.find_job jobId
       (App.db (App.handle now (App.PatchJob jobId status None result) c).1)
       = Some r' ∧
     job_worker_id r' = None ∧ job_status r' = status) ∧
  (∀ workerId, ∃ r',
     App.find_job jobId
       (App.db (App.handle now (App.PatchJob jobId status workerId None) c).1)
       = Some r' ∧
     job_result r' = None ∧ job_status r' = status) ∧
  (∀ workerId net adapter job v,
     job_id job = jobId →
     net Runtime.PatchJobProcessing = None →
     net Runtime.PatchWorkerBusy = None →
     adapter job = Runtime.Ok v →
     let req := App.PatchJob jobId completed None (Some v) in
     Runtime.Attempt Runtime.PatchJobCompleted (Runtime.Http req)
       ∈ (Runtime.processJob workerId net adapter job []).1 ∧
     ∃ r', App.find_job jobId (App.db (App.handle now req c).1) = Some r' ∧
           job_worker_id r' = None ∧ job_status r' = completed).
Proof.
  intros Hr. destruct (find_job_Some _ _ _ Hr) as [_ Hid].
  assert (∀ w res, ∃ r',
            App.find_job jobId
              (App.db (App.handle now (App.PatchJob jobId status w res) c).1)
              = Some r' ∧
            job_worker_id r' = w ∧ job_result r' = Job.result_column res ∧
            job_status r' = status) as Hpatch.
  { intros w res. simpl. rewrite find_job_updateStatus, Hr. simpl.
    rewrite decide_True by done. by eexists. }
  split; [|split].
  - intros result. destruct (Hpatch None result) as (r' & ? & ? & ? & ?).
    by exists r'.
  - intros workerId. destruct (Hpatch workerId None) as (r' & ? & ? & ? & ?).
    by exists r'.
  - intros workerId net adapter job v Hjob H1 H2 H3 req. split.
    + subst req. rewrite <- Hjob. by apply processJob_completion_patch.
    + subst req. simpl. rewrite find_job_updateStatus, Hr. simpl.
      rewrite decide_True by done. by eexists.
Qed.

(** ** Scaling down *)

Lemma filter_ext_elem_of {A} (P Q : A → Prop) `{∀ x, Decision (P x)}
    `{∀ x, Decision (Q x)} (l : list A) :
  (∀ x, x ∈ l → P x ↔ Q x) → filter P l = filter Q l.
Proof.
  induction l as [|a l IH]; intros Hl; [done|].
  rewrite !filter_cons.
  assert (filter P l = filter Q l) as ->
    by (apply IH; intros x Hx; apply Hl; by right).
  destruct (decide (P a)) as [Hp|Hp], (decide (Q a)) as [Hq|Hq]; try done;
    exfalso; apply (Hl a) in Hp || apply (Hl a) in Hq; try done; left.
Qed.

(** Stopping a list of workers, in order: each one that has a handle is
    sent [kill()] and forgotten. *)
Lemma stop_each (ws : list worker_row) (m : WorkerManager.t) :
  NoDup (worker_id <$> ws) →
  let m' := foldl (λ m w, (WorkerManager.stopWorker (worker_id w) m).1) m ws in
  WorkerManager.signals m' =
    WorkerManager.signals m ++
      filter (λ i, is_Some (WorkerManager.handles m !! i)) (worker_id <$> ws) ∧
  ∀ i, WorkerManager.handles m' !! i =
         if decide (i ∈ worker_id <$> ws) then None
         else WorkerManager.handles m !! i.
Proof.
  revert m. induction ws as [|w ws IH]; intros m Hnd; cbn [foldl].
  - split; [by rewrite fmap_nil, filter_nil, app_nil_r|]. intros i.
    rewrite decide_False; [done|]. apply not_elem_of_nil.
  - rewrite fmap_cons in Hnd |- *. apply NoDup_cons in Hnd as [Hw Hnd].
    unfold WorkerManager.stopWorker at 2 4.
    destruct (WorkerManager.handles m !! worker_id w) as [h|] eqn:Hh; simpl.
    + destruct (IH (WorkerManager.mk (delete (worker_id w) (WorkerManager.handles m))
                      (WorkerManager.signals m ++ [worker_id w])) Hnd)
        as [Hsig Hhan];
        cbn [WorkerManager.handles WorkerManager.signals] in Hsig, Hhan.
      split.
      * rewrite Hsig, filter_cons_True by (by rewrite Hh).
        rewrite <- app_assoc. simpl. do 2 f_equal.
        apply filter_ext_elem_of. intros i Hi.
        rewrite lookup_delete_ne; [done|]. intros Heq. apply Hw. by rewrite Heq.
      * intros i. rewrite Hhan.
        destruct (decide (i = worker_id w)) as [->|Hne].
        -- rewrite lookup_delete_eq, decide_False by done.
           rewrite decide_True by left. done.
        -- rewrite lookup_delete_ne by done.
           destruct (decide (i ∈ worker_id <$> ws)) as [Hi|Hi].
           ++ by rewrite decide_True by (by right).
           ++ rewrite decide_False; [done|].
              by intros [?|?]%elem_of_cons.
    + destruct (IH m Hnd) as [Hsig Hhan]. split.
      * rewrite Hsig, filter_cons_False; [done|].
        rewrite Hh. by intros [? ?].
      * intros i. rewrite Hhan.
        destruct (decide (i ∈ worker_id <$> ws)) as [Hi|Hi].
        -- by rewrite decide_True by (by right).
        -- destruct (decide (i = worker_id w)) as [->|Hne].
           ++ by rewrite decide_True by left.
           ++ rewrite decide_False; [done|]. by intros [?|?]%elem_of_cons.
Qed.

Lemma getByType_NoDup T d n :
  NoDup (worker_id <$> workers d) →
  NoDup (worker_id <$> take n (Worker.getByType T d)).
Proof.
  intros Hnd. eapply sublist_NoDup; [exact Hnd|].
  apply fmap_sublist. etrans; [apply sublist_take|]. apply sublist_filter.
Qed.

(** C8 (as the code has it). When more than [count] Worker records of type
    [T] exist, [scaleWorkers(T, count)] calls [stopWorker] on the first
    [current - count] of them in row order: those that have a live process
    are sent [kill()], in that order, and their handles are forgotten; the
    other handles stay.  No Worker record is deleted: the table is
    unchanged and still holds [current] workers of type [T]. *)
Theorem scaleWorkers_down (now : nat) (T : string) (count : nat)
    (d : database) (m : WorkerManager.t) :
  NoDup (worker_id <$> workers d) →
  count < length (Worker.getByType T d) →
  let current := Worker.getByType T d in
  let victims := worker_id <$> take (length current - count) current in
  let s' := WorkerManager.scaleWorkers now T count (d, m) in
  s'.1 = d ∧
  length (Worker.getByType T s'.1) = length current ∧
  length victims = length current - count ∧
  WorkerManager.signals s'.2 =
    WorkerManager.signals m ++
      filter (λ i, is_Some (WorkerManager.handles m !! i)) victims ∧
  ∀ i, WorkerManager.handles s'.2 !! i =
         if decide (i ∈ victims) then None else WorkerManager.handles m !! i.
Proof.
  intros Hnd Hlt current victims s'.
  assert (s' = (d, foldl (λ m w, (WorkerManager.stopWorker (worker_id w) m).1) m
                     (take (length current - count) current))) as ->.
  { unfold s', WorkerManager.scaleWorkers. cbn [fst snd]. fold current.
    rewrite decide_False by (unfold current; lia).
    by rewrite decide_True by (unfold current; lia). }
  simpl. do 2 (split; [done|]). split.
  { unfold victims. rewrite length_fmap, length_take. lia. }
  apply stop_each. by apply getByType_NoDup.
Qed.

(** ** The rate limiter *)

Section limiter.

Variables maxTokens refillRate keyExpiry : Z.
Variable key : string.

Let script := Limiter.script maxTokens refillRate keyExpiry key.

Lemma script_absent now r :
  Limiter.hashes r !! key = None →
  script now r =
    (Limiter.mk
       (<[key := <["tokens"%string := (maxTokens - 1)%Z]>
                   {["last_request"%string := now]}]> (Limiter.hashes r))
       (<[key := keyExpiry]> (Limiter.ttl r)),
     Limiter.ALLOW).
Proof.
  intros Hk. unfold script, Limiter.script, Limiter.HGET.
  rewrite Hk. simpl.
  unfold Limiter.EXPIRE, Limiter.HSET. simpl.
  rewrite Hk. simpl. rewrite !lookup_insert_eq. simpl.
  by rewrite insert_insert_eq, insert_empty.
Qed.

Lemma script_present now r h tokens last :
  Limiter.hashes r !! key = Some h →
  h !! "tokens"%string = Some tokens →
  h !! "last_request"%string = Some last →
  script now r =
    let newTokens :=
      Z.min maxTokens (tokens + (now - last) * refillRate) in
    if decide (newTokens > 0)%Z
    then (Limiter.mk
            (<[key := <["last_request"%string := now]>
                        (<["tokens"%string := (newTokens - 1)%Z]> h)]>
               (Limiter.hashes r))
            (Limiter.ttl r),
          Limiter.ALLOW)
    else (r, Limiter.DENY).
Proof.
  intros Hk Ht Hl. unfold script, Limiter.script, Limiter.HGET.
  rewrite Hk. simpl. rewrite Ht, Hl. simpl.
  case_decide; [|done].
  unfold Limiter.HSET. simpl. rewrite Hk. simpl.
  rewrite lookup_insert_eq. simpl. by rewrite insert_insert_eq.
Qed.

(** C5. One invocation of the script.  When the hash at [key] is absent
    it is created with [tokens = maxTokens - 1] and [last_request = now],
    its time to live is set to [keyExpiry], and the answer is ALLOW.
    When it holds [tokens] and [last_request], with [newTokens =
    min(maxTokens, tokens + (now - last_request) * refillRate)]: if
    [newTokens > 0] the two fields become [newTokens - 1] and [now] and
    the answer is ALLOW; otherwise nothing is written and the answer is
    DENY.  No other key is touched. *)
Theorem script_spec (now : Z) (r : Limiter.redis) :
  let out := Limiter.script maxTokens refillRate keyExpiry key now r in
  (Limiter.hashes r !! key = None →
     out.2 = Limiter.ALLOW ∧
     Limiter.hashes out.1 !! key =
       Some (<["tokens"%string := (maxTokens - 1)%Z]>
               {["last_request"%string := now]}) ∧
     Limiter.HGET key "tokens" out.1 = Some (maxTokens - 1)%Z ∧
     Limiter.HGET key "last_request" out.1 = Some now ∧
     Limiter.ttl out.1 !! key = Some keyExpiry) ∧
  (∀ h tokens last,
     Limiter.hashes r !! key = Some h →
     h !! "tokens"%string = Some tokens →
     h !! "last_request"%string = Some last →
     let newTokens :=
       Z.min maxTokens (tokens + (now - last) * refillRate) in
     ((newTokens > 0)%Z →
        out.2 = Limiter.ALLOW ∧
        Limiter.hashes out.1 !! key =
          Some (<["last_request"%string := now]>
                  (<["tokens"%string := (newTokens - 1)%Z]> h)) ∧
        Limiter.HGET key "tokens" out.1 = Some (newTokens - 1)%Z ∧
        Limiter.HGET key "last_request" out.1 = Some now ∧
        Limiter.ttl out.1 = Limiter.ttl r) ∧
     ((newTokens ≤ 0)%Z → out = (r, Limiter.DENY))) ∧
  (∀ k, k ≠ key →
     Limiter.hashes out.1 !! k = Limiter.hashes r !! k ∧
     Limiter.ttl out.1 !! k = Limiter.ttl r !! k).
Proof.
  intros out. fold script in out. split; [|split].
  - intros Hk. unfold out. rewrite (script_absent now r Hk).
    unfold Limiter.HGET. simpl. rewrite !lookup_insert_eq. simpl.
    repeat split; by simplify_map_eq.
  - intros h tokens last Hk Ht Hl newTokens. unfold out.
    rewrite (script_present now r h tokens last Hk Ht Hl).
    fold newTokens. cbv zeta. split.
    + intros Hpos. rewrite decide_True by done.
      unfold Limiter.HGET. simpl. rewrite !lookup_insert_eq. simpl.
      repeat split; by simplify_map_eq.
    + intros Hle. rewrite decide_False by lia. done.
  - intros k Hne. unfold out.
    destruct (Limiter.hashes r !! key) as [h|] eqn:Hk.
    + unfold script, Limiter.script, Limiter.HGET. rewrite Hk. simpl.
      destruct (h !! "last_request"%string) as [last|] eqn:Hl.
      * case_decide; [|done].
        unfold Limiter.HSET. simpl. by rewrite !lookup_insert_ne by done.
      * unfold Limiter.EXPIRE, Limiter.HSET. simpl.
        rewrite !lookup_insert_eq. simpl.
        by rewrite !lookup_insert_ne by done.
    + rewrite (script_absent now r Hk). simpl.
      by rewrite !lookup_insert_ne by done.
Qed.

(** The script keeps the bucket whole: after any invocation on a keyspace
    where the hash is absent or has both fields, it has both fields. *)
Lemma script_keeps_bucket_whole (now : Z) (r : Limiter.redis) :
  (Limiter.hashes r !! key = None ∨
   (is_Some (Limiter.HGET key "tokens" r) ∧
    is_Some (Limiter.HGET key "last_request" r))) →
  is_Some (Limiter.HGET key "tokens" (script now r).1) ∧
  is_Some (Limiter.HGET key "last_request" (script now r).1).
Proof.
  intros [Hk|[[t Ht] [l Hl]]].
  - rewrite (script_absent now r Hk). unfold Limiter.HGET. simpl.
    rewrite !lookup_insert_eq. simpl. split; eexists; by simplify_map_eq.
  - unfold Limiter.HGET in Ht, Hl.
    destruct (Limiter.hashes r !! key) as [h|] eqn:Hk; [|done]. simpl in Ht, Hl.
    rewrite (script_present now r h t l Hk Ht Hl). cbv zeta.
    case_decide; unfold Limiter.HGET; simpl.
    + rewrite !lookup_insert_eq. simpl. split; eexists; by simplify_map_eq.
    + rewrite Hk. simpl. by rewrite Ht, Hl.
Qed.

End limiter.

(** ** Two claims in flight *)

(** The two statements of [getNextPending] are the two moves of a claim. *)
Lemma getNextPending_moves env now T d :
  (Race.proc_step now (Race.proc_step now (Race.Start T) d).2 (env d)).2
  = Race.Done (Job.getNextPending env now T d).2.
Proof.
  unfold Job.getNextPending. simpl.
  destruct (Job.select_next_pending T d) as [job|]; simpl; [|done].
  by case_decide.
Qed.

Lemma claim_update_unclaimable now id d : unclaimable id (Job.claim_update now id d).1.
Proof.
  intros r (r0 & -> & Hr)%list_elem_of_fmap.
  case_decide as Hc; [|done]. by intros [_ ?].
Qed.

Lemma claim_update_keeps_unclaimable now id id' d :
  unclaimable id' d → unclaimable id' (Job.claim_update now id d).1.
Proof.
  intros Hu r (r0 & -> & Hr)%list_elem_of_fmap.
  case_decide as Hc; [by intros [_ ?]|by apply Hu].
Qed.

Lemma claim_update_changes_0 now id d :
  unclaimable id d → (Job.claim_update now id d).2 = 0.
Proof.
  intros Hu. simpl. destruct (filter _ _) as [|r l] eqn:E; [done|].
  assert (r ∈ filter (Job.claimable id) (jobs d)) as Hr by (rewrite E; left).
  apply list_elem_of_filter in Hr as [Hc Hr]. by destruct (Hu r Hr).
Qed.

Lemma claim_update_changes_pos now id d r :
  r ∈ jobs d → Job.claimable id r → (Job.claim_update now id d).2 ≠ 0.
Proof.
  intros Hr Hc. simpl.
  assert (r ∈ filter (Job.claimable id) (jobs d)) as Hin
    by (by apply list_elem_of_filter).
  destruct (filter _ _); [by apply elem_of_nil in Hin|done].
Qed.

Lemma claim_update_no_new_pending now id T d r :
  r ∈ jobs (Job.claim_update now id d).1 → Job.pending_of T r →
  r ∈ jobs d ∧ ¬ Job.claimable id r.
Proof.
  intros (r0 & -> & Hr)%list_elem_of_fmap.
  case_decide as Hc; [by intros [? _]|done].
Qed.

(** One move of a claim [p] next to a claim [q] that stands still keeps:
    whoever holds a job holds one that can no longer be claimed, and the
    two never hold the same job. *)
Lemma proc_step_exclusive now p q d :
  (∀ j, p = Race.Done (Some j) → unclaimable (job_id j) d) →
  (∀ j, q = Race.Done (Some j) → unclaimable (job_id j) d) →
  (∀ j1 j2, p = Race.Done (Some j1) → q = Race.Done (Some j2) →
            job_id j1 ≠ job_id j2) →
  let d' := (Race.proc_step now p d).1 in
  let p' := (Race.proc_step now p d).2 in
  (∀ j, p' = Race.Done (Some j) → unclaimable (job_id j) d') ∧
  (∀ j, q = Race.Done (Some j) → unclaimable (job_id j) d') ∧
  (∀ j1 j2, p' = Race.Done (Some j1) → q = Race.Done (Some j2) →
            job_id j1 ≠ job_id j2).
Proof.
  intros Hp Hq Hpq. destruct p as [T|job|res]; simpl.
  - destruct (Job.select_next_pending T d); simpl; by repeat split.
  - destruct (decide (length (filter (Job.claimable (job_id job)) (jobs d)) = 0))
      as [H0|H0]; simpl.
    + split; [done|]. split; [|done].
      intros j Hj. apply claim_update_keeps_unclaimable. by apply Hq.
    + split; [|split].
      * intros j [= <-]. apply claim_update_unclaimable.
      * intros j Hj. apply claim_update_keeps_unclaimable. by apply Hq.
      * intros j1 j2 [= <-] Hj2 Heq. apply H0.
        apply (claim_update_changes_0 now). rewrite Heq. by apply Hq.
  - by repeat split.
Qed.

Lemma step_exclusive c who : exclusive c → exclusive (Race.step c who).
Proof.
  intros (H1 & H2 & H12). unfold Race.step. destruct who as [[|] now]; simpl.
  - pose proof (proc_step_exclusive now _ _ _ H1 H2 H12) as H.
    destruct (Race.proc_step now (Race.first c) (Race.store c)). exact H.
  - assert (∀ j1 j2, Race.second c = Race.Done (Some j1) →
                     Race.first c = Race.Done (Some j2) → job_id j1 ≠ job_id j2)
      as H21 by (intros j1 j2 ? ? ?; by eapply H12).
    pose proof (proc_step_exclusive now _ _ _ H2 H1 H21) as (Ha & Hb & Hc).
    destruct (Race.proc_step now (Race.second c) (Race.store c)).
    split; [done|]. split; [done|].
    intros j1 j2 ? ? ?. by eapply Hc.
Qed.

Lemma run_exclusive c sched : exclusive c → exclusive (Race.run c sched).
Proof.
  revert c. induction sched as [|who sched IH]; intros c Hc; [done|].
  simpl. apply IH. by apply step_exclusive.
Qed.

(** *** Every claim finishes after its two statements *)

Lemma proc_step_remaining now p d :
  remaining (Race.proc_step now p d).2 ≤ pred (remaining p).
Proof.
  destruct p as [T|j|r]; simpl; [|done..].
  destruct (Job.select_next_pending T d); simpl; lia.
Qed.

Lemma run_remaining c sched :
  remaining (Race.first (Race.run c sched))
    ≤ remaining (Race.first c) - turns true sched ∧
  remaining (Race.second (Race.run c sched))
    ≤ remaining (Race.second c) - turns false sched.
Proof.
  revert c. induction sched as [|[who now] sched IH]; intros c.
  - unfold turns. simpl. lia.
  - simpl. destruct (IH (Race.step c (who, now))) as [H1 H2].
    revert H1 H2.
    unfold turns. rewrite !filter_cons. unfold Race.step. simpl.
    destruct who; simpl.
    + pose proof (proc_step_remaining now (Race.first c) (Race.store c)) as H.
      destruct (Race.proc_step now (Race.first c) (Race.store c)); simpl in *.
      lia.
    + pose proof (proc_step_remaining now (Race.second c) (Race.store c)) as H.
      destruct (Race.proc_step now (Race.second c) (Race.store c)); simpl in *.
      lia.
Qed.

Lemma remaining_finished p : remaining p = 0 → finished p.
Proof. destruct p; try done. intros _. by eexists. Qed.

(** *** One pending job, two claims of its type *)

Lemma select_only T d j :
  filter (Job.pending_of T) (jobs d) = [j] → Job.select_next_pending T d = Some j.
Proof. unfold Job.select_next_pending. by intros ->. Qed.

Lemma select_none T d :
  filter (Job.pending_of T) (jobs d) = [] → Job.select_next_pending T d = None.
Proof. unfold Job.select_next_pending. by intros ->. Qed.

Lemma claim_update_closes now T j d :
  filter (Job.pending_of T) (jobs d) = [j] →
  filter (Job.pending_of T) (jobs (Job.claim_update now (job_id j) d).1) = [].
Proof.
  intros Hj.
  destruct (filter _ (jobs (Job.claim_update _ _ _).1)) as [|r l] eqn:E; [done|].
  assert (r ∈ filter (Job.pending_of T) (jobs (Job.claim_update now (job_id j) d).1))
    as Hr by (rewrite E; left).
  apply list_elem_of_filter in Hr as [HP Hr].
  destruct (claim_update_no_new_pending _ _ _ _ _ Hr HP) as [Hin Hnc].
  assert (r ∈ filter (Job.pending_of T) (jobs d)) as Hr'
    by (by apply list_elem_of_filter).
  rewrite Hj in Hr'. apply list_elem_of_singleton in Hr' as ->.
  destruct Hnc. split; [done|]. by destruct HP.
Qed.

Lemma claim_update_stays_closed now id T d :
  filter (Job.pending_of T) (jobs d) = [] →
  filter (Job.pending_of T) (jobs (Job.claim_update now id d).1) = [].
Proof.
  intros Hj.
  destruct (filter _ (jobs (Job.claim_update _ _ _).1)) as [|r l] eqn:E; [done|].
  assert (r ∈ filter (Job.pending_of T) (jobs (Job.claim_update now id d).1))
    as Hr by (rewrite E; left).
  apply list_elem_of_filter in Hr as [HP Hr].
  destruct (claim_update_no_new_pending _ _ _ _ _ Hr HP) as [Hin Hnc].
  assert (r ∈ filter (Job.pending_of T) (jobs d)) as Hr'
    by (by apply list_elem_of_filter).
  rewrite Hj in Hr'. by apply elem_of_nil in Hr'.
Qed.

(** A move while the job is still pending: the claim selects it, or takes
    it. *)
Lemma proc_step_open now T j p d :
  filter (Job.pending_of T) (jobs d) = [j] → waiting T j p →
  let d' := (Race.proc_step now p d).1 in
  let p' := (Race.proc_step now p d).2 in
  (d' = d ∧ p' = Race.Selected j) ∨
  (p' = Race.Done (Some j) ∧ filter (Job.pending_of T) (jobs d') = [] ∧
   unclaimable (job_id j) d').
Proof.
  intros Hj [->| ->]; simpl.
  - rewrite (select_only T d j Hj). by left.
  - right.
    assert (j ∈ filter (Job.pending_of T) (jobs d)) as Hin by (rewrite Hj; left).
    apply list_elem_of_filter in Hin as [[Hs _] Hin].
    pose proof (claim_update_changes_pos now (job_id j) d j Hin (conj eq_refl Hs))
      as Hpos. simpl in Hpos.
    rewrite decide_False by done. split; [done|]. split.
    + by apply (claim_update_closes now T j d).
    + apply claim_update_unclaimable.
Qed.

(** A move after the job was taken: the claim does not win. *)
Lemma proc_step_closed now T j p d :
  filter (Job.pending_of T) (jobs d) = [] → unclaimable (job_id j) d →
  lost T j p →
  let d' := (Race.proc_step now p d).1 in
  let p' := (Race.proc_step now p d).2 in
  lost T j p' ∧ filter (Job.pending_of T) (jobs d') = [] ∧
  unclaimable (job_id j) d'.
Proof.
  intros Hj Hu [->|[->| ->]]; simpl.
  - rewrite (select_none T d Hj). simpl. split; [|done]. right. by right.
  - pose proof (claim_update_changes_0 now (job_id j) d Hu) as H0. simpl in H0.
    rewrite decide_True by done. split; [right; by right|]. split.
    + by apply (claim_update_stays_closed now (job_id j) T d).
    + by apply claim_update_keeps_unclaimable.
  - split; [|done]. right. by right.
Qed.

Lemma step_contested T j c who : contested T j c → contested T j (Race.step c who).
Proof.
  destruct c as [d p q], who as [[|] now]; unfold contested, Race.step; simpl.
  - intros [(Hj & Hp & Hq)|(Hj & Hu & [[-> Hq]|[-> Hp]])].
    + pose proof (proc_step_open now T j p d Hj Hp) as H. cbv zeta in H.
      destruct (Race.proc_step now p d) as [d' p']; simpl in *.
      destruct H as [[-> ->]|(-> & Hj' & Hu')].
      * left. split; [done|]. split; [by right|done].
      * right. do 2 (split; [done|]). left. split; [done|].
        destruct Hq as [->| ->]; [by left|right; by left].
    + simpl. right. do 2 (split; [done|]). by left.
    + pose proof (proc_step_closed now T j p d Hj Hu Hp) as H. cbv zeta in H.
      destruct (Race.proc_step now p d) as [d' p']; simpl in *.
      destruct H as (Hp' & Hj' & Hu'). right. do 2 (split; [done|]). by right.
  - intros [(Hj & Hp & Hq)|(Hj & Hu & [[-> Hq]|[-> Hp]])].
    + pose proof (proc_step_open now T j q d Hj Hq) as H. cbv zeta in H.
      destruct (Race.proc_step now q d) as [d' q']; simpl in *.
      destruct H as [[-> ->]|(-> & Hj' & Hu')].
      * left. split; [done|]. split; [done|by right].
      * right. do 2 (split; [done|]). right. split; [done|].
        destruct Hp as [->| ->]; [by left|right; by left].
    + pose proof (proc_step_closed now T j q d Hj Hu Hq) as H. cbv zeta in H.
      destruct (Race.proc_step now q d) as [d' q']; simpl in *.
      destruct H as (Hq' & Hj' & Hu'). right. do 2 (split; [done|]). by left.
    + simpl. right. do 2 (split; [done|]). by right.
Qed.

Lemma run_contested T j c sched : contested T j c → contested T j (Race.run c sched).
Proof.
  revert c. induction sched as [|who sched IH]; intros c Hc; [done|].
  simpl. apply IH. by apply step_contested.
Qed.

Lemma lost_finished T j p : lost T j p → finished p → p = Race.Done None.
Proof. intros [->|[->| ->]] [x Hx]; done. Qed.

Lemma waiting_not_finished T j p : waiting T j p → ¬ finished p.
Proof. intros [->| ->] [x Hx]; done. Qed.

(** *** Two claims that selected the same row *)

Lemma step_racing j1 j2 c who :
  job_id j1 = job_id j2 → racing j1 j2 c → racing j1 j2 (Race.step c who).
Proof.
  intros Hid. destruct c as [d p q], who as [[|] now];
    unfold racing, Race.step; simpl.
  - intros [(-> & -> & r & Hr & Hc)|(Hu & [[-> Hq]|[-> Hp]])]; simpl.
    + pose proof (claim_update_changes_pos now (job_id j1) d r Hr Hc) as Hpos.
      simpl in Hpos. rewrite decide_False by done.
      right. split; [apply claim_update_unclaimable|]. left. split; [done|by left].
    + right. split; [done|]. by left.
    + right. destruct Hp as [->| ->]; simpl.
      * pose proof (claim_update_changes_0 now (job_id j1) d Hu) as H0.
        simpl in H0. rewrite decide_True by done.
        split; [by apply claim_update_keeps_unclaimable|]. right.
        split; [done|by right].
      * split; [done|]. right. split; [done|by right].
  - intros [(-> & -> & r & Hr & Hc)|(Hu & [[-> Hq]|[-> Hp]])]; simpl.
    + rewrite Hid in Hc.
      pose proof (claim_update_changes_pos now (job_id j2) d r Hr Hc) as Hpos.
      simpl in Hpos. rewrite decide_False by done.
      right. split; [rewrite Hid; apply claim_update_unclaimable|].
      right. split; [done|by left].
    + right. destruct Hq as [->| ->]; simpl.
      * rewrite Hid in Hu.
        pose proof (claim_update_changes_0 now (job_id j2) d Hu) as H0.
        simpl in H0. rewrite decide_True by done.
        split; [rewrite Hid; by apply claim_update_keeps_unclaimable|]. left.
        split; [done|by right].
      * split; [done|]. left. split; [done|by right].
    + right. split; [done|]. by right.
Qed.

Lemma run_racing j1 j2 c sched :
  job_id j1 = job_id j2 → racing j1 j2 c → racing j1 j2 (Race.run c sched).
Proof.
  intros Hid. revert c. induction sched as [|who sched IH]; intros c Hc; [done|].
  simpl. apply IH. by apply step_racing.
Qed.

(** C2. Whatever the order in which the event loop runs the SELECT and the
    UPDATE of two claims:
    - the two never both return the same job (at most one worker per job);
    - when both selected the same row and it can still be claimed, exactly
      one of them returns it and the other returns null;
    - when one job of type [T] is pending and both claims ask for [T],
      exactly one of them returns that job and the other returns null;
    - a schedule that gives each claim its two statements finishes both. *)
Theorem claim_race (d : database) (sched : list (bool * nat)) :
  (∀ T1 T2 j1 j2,
     let c := Race.run (Race.mk d (Race.Start T1) (Race.Start T2)) sched in
     Race.first c = Race.Done (Some j1) → Race.second c = Race.Done (Some j2) →
     job_id j1 ≠ job_id j2) ∧
  (∀ j1 j2,
     job_id j1 = job_id j2 →
     (∃ r, r ∈ jobs d ∧ Job.claimable (job_id j1) r) →
     let c := Race.run (Race.mk d (Race.Selected j1) (Race.Selected j2)) sched in
     finished (Race.first c) → finished (Race.second c) →
     (Race.first c = Race.Done (Some j1) ∧ Race.second c = Race.Done None) ∨
     (Race.first c = Race.Done None ∧ Race.second c = Race.Done (Some j2))) ∧
  (∀ T j,
     filter (Job.pending_of T) (jobs d) = [j] →
     let c := Race.run (Race.mk d (Race.Start T) (Race.Start T)) sched in
     finished (Race.first c) → finished (Race.second c) →
     (Race.first c = Race.Done (Some j) ∧ Race.second c = Race.Done None) ∨
     (Race.first c = Race.Done None ∧ Race.second c = Race.Done (Some j))) ∧
  (∀ p q,
     2 ≤ turns true sched → 2 ≤ turns false sched →
     let c := Race.run (Race.mk d p q) sched in
     finished (Race.first c) ∧ finished (Race.second c)).
Proof.
  split; [|split; [|split]].
  - intros T1 T2 j1 j2 c.
    assert (exclusive c) as (_ & _ & H); [|by apply H].
    apply run_exclusive. by repeat split.
  - intros j1 j2 Hid Hr c H1 H2.
    assert (racing j1 j2 c) as [(E1 & _)|(_ & [[E1 [E2|E2]]|[E2 [E1|E1]]])].
    { apply run_racing; [done|]. left. by repeat split. }
    + rewrite E1 in H1. by destruct H1.
    + rewrite E2 in H2. by destruct H2.
    + by left.
    + rewrite E1 in H1. by destruct H1.
    + by right.
  - intros T j Hj c H1 H2.
    assert (contested T j c) as [(_ & Hw & _)|(_ & _ & [[E1 Hl]|[E2 Hl]])].
    { apply run_contested. left. split; [done|]. split; by left. }
    + by destruct (waiting_not_finished T j _ Hw).
    + left. split; [done|]. by eapply lost_finished.
    + right. split; [|done]. by eapply lost_finished.
  - intros p q Ht Hf c.
    destruct (run_remaining (Race.mk d p q) sched) as [H1 H2]. simpl in H1, H2.
    fold c in H1, H2.
    split; apply remaining_finished.
    + destruct p; simpl in H1; lia.
    + destruct q; simpl in H2; lia.
Qed.

(** * The statements at sample states *)

Ltac by_evaluation := apply (bool_decide_unpack _); vm_compute; exact I.

Lemma reachable_serve_from c reqs :
  App.reachable c → App.reachable (App.serve c reqs).
Proof.
  revert c. induction reqs as [|[now req] reqs IH]; intros c Hc; [done|].
  simpl. apply IH. by constructor.
Qed.

Lemma reachable_sample reqs : App.reachable (App.serve booted reqs).
Proof. apply reachable_serve_from. constructor. Qed.

Lemma reachable_sample2 reqs reqs' :
  App.reachable (App.serve (App.serve booted reqs) reqs').
Proof. apply reachable_serve_from, reachable_sample. Qed.

(** With no job in the table the claim is null; with two pending SMS jobs a
    pending SMS job is selected, the first row of the table then reads
    [processing], and the claim returns the selected job. *)
Lemma getNextPending_spec_witness :
  Job.getNextPending id 103 "sms" empty_db = (empty_db, None) ∧
  (∃ r, r ∈ jobs (App.db two_sms) ∧ Job.pending_of "sms" r) ∧
  ∃ job, Job.select_next_pending "sms" (App.db two_sms) = Some job ∧
         job_status job = pending ∧ job_type job = "sms"%string ∧
         (∃ r', jobs (Job.getNextPending id 103 "sms" (App.db two_sms)).1 !! 0
                  = Some r' ∧
                job_status r' = "processing"%string ∧ job_updated_at r' = 103) ∧
         (Job.getNextPending id 103 "sms" (App.db two_sms)).2 = Some job.
Proof.
  split.
  - apply (proj1 (getNextPending_spec id 103 "sms" empty_db)).
    intros r Hr. vm_compute in Hr. inversion Hr.
  - assert (∃ r, r ∈ jobs (App.db two_sms) ∧ Job.pending_of "sms" r) as H.
    { exists first_sms. split; [vm_compute; left|]. split; reflexivity. }
    split; [exact H|].
    destruct (proj2 (getNextPending_spec id 103 "sms" (App.db two_sms)) H)
      as (job & Hsel & _ & Hs & Ht & _ & Hrows & _ & _ & Hres & _).
    exists job. split; [exact Hsel|]. split; [exact Hs|]. split; [exact Ht|].
    clear Hs Ht.
    assert (Job.select_next_pending "sms" (App.db two_sms) = Some first_sms)
      as Hfirst by (vm_compute; reflexivity).
    rewrite Hfirst in Hsel. injection Hsel as <-.
    split.
    + destruct (Hrows 0 first_sms eq_refl) as (r' & Hr' & Hif).
      exists r'. split; [exact Hr'|].
      vm_compute in Hif. destruct Hif as (Hst & Hup & _).
      split; [exact Hst|exact Hup].
    + rewrite Hres. reflexivity.
Defined.

(** Both claims select job 1 before either updates it: the first wins. *)
Lemma claim_race_witness :
  filter (Job.pending_of "sms") (jobs (App.db one_sms)) = [first_sms] ∧
  let c := Race.run (Race.mk (App.db one_sms) (Race.Start "sms") (Race.Start "sms"))
                    both_select_first in
  finished (Race.first c) ∧ finished (Race.second c) ∧
  ((Race.first c = Race.Done (Some first_sms) ∧ Race.second c = Race.Done None) ∨
   (Race.first c = Race.Done None ∧ Race.second c = Race.Done (Some first_sms))).
Proof.
  assert (filter (Job.pending_of "sms") (jobs (App.db one_sms)) = [first_sms])
    as Hj by (vm_compute; reflexivity).
  split; [exact Hj|]. cbv zeta.
  destruct (claim_race (App.db one_sms) both_select_first) as (_ & _ & Hone & Hfin).
  destruct (Hfin (Race.Start "sms") (Race.Start "sms")) as [H1 H2];
    [vm_compute; lia..|].
  split; [exact H1|]. split; [exact H2|].
  exact (Hone "sms"%string first_sms Hj H1 H2).
Defined.

(** Job 1 is completed; a PATCH with status [pending] puts it back. *)
Lemma patch_regresses_status :
  App.reachable one_completed ∧
  job_status <$> App.find_job 1 (App.db one_completed) = Some completed ∧
  job_status <$> App.find_job 1
    (App.db (App.handle 105 (App.PatchJob 1 pending None None) one_completed).1)
    = Some pending.
Proof.
  split; [apply reachable_sample2|]. split; vm_compute; reflexivity.
Qed.

Lemma status_after_request_witness :
  App.find_job 1 (App.db one_completed)
    = Some (mk_job 1 "sms" (JObj [("to"%string, JStr "+1")]) completed None
              (Some (JObj [("ok"%string, JBool true)])) 101 104) ∧
  ∃ r', App.find_job 1
          (App.db (App.handle 105 (App.PatchJob 1 pending None None)
                     one_completed).1) = Some r' ∧
        job_status r' = pending.
Proof.
  assert (App.find_job 1 (App.db one_completed)
            = Some (mk_job 1 "sms" (JObj [("to"%string, JStr "+1")]) completed None
                      (Some (JObj [("ok"%string, JBool true)])) 101 104)) as H
    by (vm_compute; reflexivity).
  split; [exact H|].
  destruct (status_after_request 105 (App.PatchJob 1 pending None None)
              one_completed 1 _ H) as (r' & Hr' & Hs).
  exists r'. split; [exact Hr'|]. exact Hs.
Defined.

(** One job, patched to [cancelled]: the four counters add up to 0, the
    table holds 1 row. *)
Lemma stats_miss_unknown_status :
  App.reachable one_cancelled ∧
  ∃ js ws, (App.handle 103 App.GetStats one_cancelled).2 = (200, App.BStats js ws) ∧
           sum_counts js = 0 ∧ length (jobs (App.db one_cancelled)) = 1.
Proof.
  split; [apply reachable_sample2|].
  eexists _, _. split; [reflexivity|]. split; vm_compute; reflexivity.
Qed.

(** Two pending jobs, and a worker patched while the counters are read:
    the counters are 2, 0, 0, 0. *)
Lemma stats_sum_witness :
  App.reachable two_sms ∧ undisturbed worker_patch_between (App.db two_sms) ∧
  ∃ js ws,
    (App.getStats worker_patch_between two_sms).2 = (200, App.BStats js ws) ∧
    Job.st_pending js = 2 ∧
    sum_counts js = length (jobs (App.db two_sms)).
Proof.
  assert (App.reachable two_sms) as H by apply reachable_sample.
  assert (undisturbed worker_patch_between (App.db two_sms)) as Hu
    by (repeat split; vm_compute; reflexivity).
  split; [exact H|]. split; [exact Hu|].
  destruct (stats_sum two_sms worker_patch_between H)
    as (js & ws & Hresp & Hp & _ & _ & _ & Hsum).
  destruct (Hsum Hu) as (_ & _ & Hall).
  exists js, ws. split; [exact Hresp|]. split; [rewrite Hp; reflexivity|].
  apply (Hall 100 [(101, App.PostJob sms sample_payload);
                   (102, App.PostJob sms sample_payload)]); [reflexivity|].
  repeat constructor.
Defined.

(** The first call of the script creates the bucket with 9 tokens; on the
    drained bucket, within the same second, it answers DENY. *)
Lemma script_spec_witness :
  (Limiter.limiter_api_BMN 1000 (Limiter.mk ∅ ∅)).2 = Limiter.ALLOW ∧
  Limiter.HGET "api_BMN_limit" "tokens"
    (Limiter.limiter_api_BMN 1000 (Limiter.mk ∅ ∅)).1 = Some 9%Z ∧
  Limiter.limiter_api_BMN 1000 drained = (drained, Limiter.DENY).
Proof.
  destruct (script_spec 10 5 300 "api_BMN_limit" 1000 (Limiter.mk ∅ ∅))
    as (Habsent & _ & _).
  destruct (Habsent eq_refl) as (Hallow & _ & Htokens & _).
  split; [exact Hallow|]. split; [exact Htokens|].
  destruct (script_spec 10 5 300 "api_BMN_limit" 1000 drained)
    as (_ & Hpresent & _).
  destruct (Hpresent {[ "tokens"%string := 0%Z; "last_request"%string := 1000%Z ]}
              0%Z 1000%Z) as [_ Hdeny]; [vm_compute; reflexivity..|].
  apply Hdeny. vm_compute. discriminate.
Defined.

(** The PATCH of the job to [processing] fails: [processJob] throws, the
    adapter never runs, and the worker is never marked busy. *)
Lemma first_patch_failure_aborts :
  let run := Runtime.processJob 3 first_patch_fails adapter_ok first_sms [] in
  run.2 = Runtime.Throw "ECONNRESET" ∧
  Runtime.executed run.1 = false ∧
  Runtime.attempts run.1 =
    [Runtime.PatchJobProcessing; Runtime.PatchJobFailed;
     Runtime.PatchWorkerIdleAfterFailure; Runtime.PublishFailed].
Proof. repeat split; vm_compute; reflexivity. Qed.

Lemma processJob_failures_witness :
  let run := Runtime.processJob 3 first_patch_fails adapter_ok first_sms [] in
  first_patch_fails Runtime.PatchJobProcessing = Some "ECONNRESET"%string ∧
  Runtime.PatchJobProcessing ∈ Runtime.attempts run.1 ∧
  (Runtime.what Runtime.PatchJobProcessing +:+ "ECONNRESET")%string
    ∈ Runtime.logged run.1 ∧
  run.2 = Runtime.Throw "ECONNRESET".
Proof.
  cbv zeta.
  assert (first_patch_fails Runtime.PatchJobProcessing = Some "ECONNRESET"%string)
    as Hnet by reflexivity.
  assert (Runtime.PatchJobProcessing ∈
            Runtime.attempts
              (Runtime.processJob 3 first_patch_fails adapter_ok first_sms []).1)
    as Hin by (vm_compute; left).
  destruct (processJob_failures 3 first_patch_fails adapter_ok first_sms)
    as (Hlog & _ & Hthrow).
  split; [exact Hnet|]. split; [exact Hin|]. split.
  - exact (Hlog Runtime.PatchJobProcessing _ Hnet Hin).
  - exact (proj1 (Hthrow Runtime.PatchJobProcessing _ eq_refl Hnet Hin)).
Defined.

(** Three SMS workers scaled down to one: the table still has three. *)
Lemma scale_down_keeps_records :
  App.reachable three_sms_workers ∧
  length (Worker.getByType "sms" (App.db three_sms_workers)) = 3 ∧
  let s' := WorkerManager.scaleWorkers 104 "sms" 1
              (App.db three_sms_workers, App.manager three_sms_workers) in
  length (Worker.getByType "sms" s'.1) = 3 ∧
  WorkerManager.signals s'.2 = [3; 6].
Proof.
  split; [apply reachable_sample|]. repeat split; vm_compute; reflexivity.
Qed.

Lemma scaleWorkers_down_witness :
  let d := App.db three_sms_workers in
  let m := App.manager three_sms_workers in
  NoDup (worker_id <$> workers d) ∧
  1 < length (Worker.getByType "sms" d) ∧
  (WorkerManager.scaleWorkers 104 "sms" 1 (d, m)).1 = d ∧
  length (Worker.getByType "sms" (WorkerManager.scaleWorkers 104 "sms" 1 (d, m)).1)
    = length (Worker.getByType "sms" d).
Proof.
  cbv zeta.
  assert (NoDup (worker_id <$> workers (App.db three_sms_workers))) as Hnd
    by by_evaluation.
  assert (1 < length (Worker.getByType "sms" (App.db three_sms_workers))) as Hlt
    by (vm_compute; lia).
  split; [exact Hnd|]. split; [exact Hlt|].
  destruct (scaleWorkers_down 104 "sms" 1 _ (App.manager three_sms_workers)
              Hnd Hlt) as (Hd & Hlen & _).
  split; [exact Hd|exact Hlen].
Defined.

(** Job 1 is being processed by worker 3; the completion PATCH of
    [processJob] leaves it completed with no worker. *)
Lemma updateStatus_overwrites_witness :
  job_worker_id <$> App.find_job 1 (App.db one_processing) = Some (Some 3) ∧
  ∃ r', App.find_job 1
          (App.db (App.handle 104
                     (App.PatchJob 1 completed None
                        (Some (JObj [("ok"%string, JBool true)])))
                     one_processing).1) = Some r' ∧
        job_worker_id r' = None ∧ job_status r' = completed.
Proof.
  assert (App.find_job 1 (App.db one_processing)
            = Some (mk_job 1 "sms" (JObj [("to"%string, JStr "+1")]) processing
                      (Some 3) None 101 103)) as H by (vm_compute; reflexivity).
  split; [by rewrite H|].
  destruct (updateStatus_overwrites 104 1 completed one_processing _ H)
    as (_ & _ & Hrun).
  destruct (Hrun 3 (λ _, None) adapter_ok first_sms
              (JObj [("ok"%string, JBool true)]) eq_refl eq_refl eq_refl eq_refl)
    as (_ & r' & Hr' & Hw & Hs).
  exists r'. split; [exact Hr'|]. split; [exact Hw|exact Hs].
Defined.

(** The first of two pending SMS jobs is claimed: the answer still says
    [pending], the table says [processing]. *)
Lemma claimed_job_reads_pending_witness :
  NoDup (job_id <$> jobs (App.db two_sms)) ∧
  (Job.getNextPending id 103 "sms" (App.db two_sms)).2 = Some first_sms ∧
  job_status first_sms = pending ∧
  (App.handle 103 (App.GetNextJob "sms") two_sms).2
    = (200, App.BJob (Some first_sms)) ∧
  ∃ r, App.find_job 1 (App.db (App.handle 103 (App.GetNextJob "sms") two_sms).1)
         = Some r ∧ job_status r = processing.
Proof.
  assert (NoDup (job_id <$> jobs (id (App.db two_sms)))) as Hnd by by_evaluation.
  assert ((Job.getNextPending id 103 "sms" (App.db two_sms)).2 = Some first_sms)
    as Hres by (vm_compute; reflexivity).
  split; [exact Hnd|]. split; [exact Hres|].
  destruct (claimed_job_reads_pending id 103 "sms" (App.db two_sms) first_sms
              Hnd Hres) as (_ & Hs & _ & Hhttp).
  split; [exact Hs|]. exact (Hhttp two_sms eq_refl eq_refl).
Defined.


(** ** Scenarios *)

(** Fifteen calls within one second: ten are allowed, five denied; a second
    later five more are allowed. *)
Example limiter_burst :
  answers (replicate 15 1000%Z ++ replicate 6 1001%Z) (Limiter.mk ∅ ∅)
  = replicate 10 Limiter.ALLOW ++ replicate 5 Limiter.DENY
    ++ replicate 5 Limiter.ALLOW ++ [Limiter.DENY].
Proof. vm_compute. reflexivity. Qed.

(** An array payload is refused and no row is created. *)
Example invalid_payload :
  App.handle 101 (App.PostJob (Some (JStr "email")) (Some (JArr []))) booted
  = (booted, (400, App.BError "Payload must be a non-empty object")).
Proof. reflexivity. Qed.

(** Two jobs created in the same second are claimed in rowid order. *)
Example same_second_fifo :
  let c := App.serve booted [(101, App.PostJob sms sample_payload);
                             (101, App.PostJob sms sample_payload)] in
  job_id <$> Job.select_next_pending "sms" (App.db c) = Some 1.
Proof. vm_compute. reflexivity. Qed.

(** A claim served between the count of the pending and the count of the
    processing jobs: the only job is counted twice. *)
Example stats_count_claimed_job_twice :
  let js := (Job.getStats claim_between (App.db one_sms)).2 in
  length (jobs (App.db one_sms)) = 1 ∧
  Job.st_pending js = 1 ∧ Job.st_processing js = 1 ∧ sum_counts js = 2.
Proof. repeat split. Qed.

(** The histogram by type lists the types in their order, not in the order
    the jobs were created. *)
Example stats_by_type_sorted :
  let c := App.serve booted [(101, App.PostJob sms sample_payload);
                             (102, App.PostJob (Some (JStr "email"))
                                     sample_payload);
                             (103, App.PostJob sms sample_payload)] in
  Job.st_byType (Job.getStats (λ _ d, d) (App.db c)).2
  = [("email"%string, 1); ("sms"%string, 2)].
Proof. vm_compute. reflexivity. Qed.

(** The second of two claims of the only pending job gets null, also when
    the first completes before the second starts. *)
Example one_after_the_other :
  let c := Race.run (Race.mk (App.db one_sms) (Race.Start "sms") (Race.Start "sms"))
                    [(true, 102); (true, 102); (false, 103); (false, 103)] in
  Race.first c = Race.Done (Some first_sms) ∧ Race.second c = Race.Done None.
Proof. split; vm_compute; reflexivity. Qed.
